(** * buff: a fixed-size circular buffer of byte records

    Shallow embedding of package [buff] (Init, Add, Test, Reset, GetRecent,
    GetOldest, testRecent, testOldest) and proofs about its index
    arithmetic, wrap-around and scan orders.

    Modelling conventions.
    - A Go [[]byte] is either nil or a (possibly empty) sequence of bytes:
      [slice := option (list byte)], nil being [None].
    - A Go [int] is a 64-bit signed integer, modelled as [Z]; the increment
      [b.ptr++] is written with its wrap-around.
    - Indexing a slice outside its bounds panics in Go: fallible operations
      return a [result], whose [Panic] case is the runtime panic.
    - [Init] returns a buffer pointer and an error: a sum [error + Buff],
      inside a [result] for the panic of its [make].
    - [make] panics on a length the runtime cannot address; the bound is
      the one of a 64-bit platform. Memory for an admissible length is
      taken to be available.
    - The [sync.RWMutex] makes every method body atomic; the model is the
      sequential semantics of one method body at a time.
    - Records are treated as values: a caller is assumed not to write into
      the backing array of a slice after handing it to [Add]. Module
      [shared] drops this assumption: there a slice is a header into a heap
      of arrays, and the value-level methods are shown to be its image.

    Also embedded: the test helper [intToByte] and the insertion loop of
    the tests (buff_test.go), and [bodyFrom] of the publisher
    (emit_log.go). *)

From Stdlib.Strings Require Import String.
From Stdlib Require Import ZArith Lia Bool.
From Stdlib.Strings Require Import Byte.
From stdpp Require Import base tactics option list list_numbers.

Local Open Scope Z_scope.

Module buff.

(** ** Go values *)

(** [[]byte]: nil, or a non-nil slice with its bytes. *)
Definition slice : Type := option (list byte).

Definition contents (s : slice) : list byte :=
  match s with
  | Some l => l
  | None => []
  end.

(** Go's [len]: a nil slice has length 0. *)
Definition len (s : slice) : nat := length (contents s).

Fixpoint bytes_eqb (a b : list byte) : bool :=
  match a, b with
  | [], [] => true
  | x :: a', y :: b' => Byte.eqb x y && bytes_eqb a' b'
  | _, _ => false
  end.

(** [bytes.Equal]: same length and same bytes; a nil argument is
    equivalent to an empty slice. *)
Definition bytes_Equal (a b : slice) : bool :=
  bytes_eqb (contents a) (contents b).

(** [make([]byte, n)]: a non-nil slice of [n] zero bytes. *)
Definition make_bytes (n : nat) : list byte := replicate n x00.

(** [copy(dst, src)]: overwrites the first [min (len dst) (len src)] bytes
    of [dst] with those of [src]. *)
Definition copy (dst src : list byte) : list byte :=
  take (length dst) src ++ drop (length src) dst.

(** 64-bit signed integers. *)
Definition int_min : Z := - 2 ^ 63.
Definition int_max : Z := 2 ^ 63 - 1.
Definition is_int (z : Z) : Prop := int_min <= z <= int_max.
Definition wrap_int (z : Z) : Z := (z + 2 ^ 63) mod 2 ^ 64 - 2 ^ 63.

(** ** Failure: runtime panics *)

Inductive result (A : Type) : Type :=
  | Ok (a : A)
  | Panic.
Arguments Ok {A} a.
Arguments Panic {A}.

#[global] Instance result_ret : MRet result := fun A a => Ok a.
#[global] Instance result_bind : MBind result := fun A B f m =>
  match m with
  | Ok a => f a
  | Panic => Panic
  end.

(** [d[i]] for reading. *)
Definition index (d : list slice) (i : Z) : result slice :=
  if 0 <=? i then
    match d !! Z.to_nat i with
    | Some s => Ok s
    | None => Panic
    end
  else Panic.

(** [d[i] = v]. *)
Definition store (d : list slice) (i : Z) (v : slice) : result (list slice) :=
  if (0 <=? i) && (i <? Z.of_nat (length d)) then Ok (<[Z.to_nat i := v]> d)
  else Panic.

(** The runtime's limit on one allocation, in bytes, and the size of one
    slot, a slice header of three words. *)
Definition maxAlloc : Z := 2 ^ 48.
Definition slot_bytes : Z := 24.

(** The largest number of slots [make([][]byte, n)] accepts. *)
Definition max_slots : Z := maxAlloc / slot_bytes.

(** [make([][]byte, n)]: [n] nil slices; panics (makeslice: len out of
    range) on a negative length and on one whose slots take more than
    [maxAlloc] bytes. *)
Definition make_data (n : Z) : result (list slice) :=
  if (n <? 0) || (maxAlloc <? slot_bytes * n) then Panic
  else Ok (replicate (Z.to_nat n) None).

(** ** The buffer *)

Inductive error : Type :=
  | errSize   (* "error: size of buff must be greater than 0" *)
  | errMode.  (* "error: invalid search mode specified" *)

(** [type Mode uint8]. *)
Definition Mode : Type := Z.
Definition is_uint8 (m : Z) : Prop := 0 <= m < 256.
Definition Recent : Mode := 0.
Definition Oldest : Mode := 1.

Record Buff : Type := mkBuff {
  size : Z;           (* size of buffer *)
  mode : Mode;        (* search mode of buffer *)
  ptr : Z;            (* index of the next slot to write *)
  data : list slice   (* byte store of buffer *)
}.

Definition Init (size : Z) (mode : Mode) : result (error + Buff) :=
  if size <? 1 then Ok (inl errSize)
  else if negb (mode =? 0) && negb (mode =? 1) then Ok (inl errMode)
  else
    dat ← make_data size;
    Ok (inr {| size := size; mode := mode; ptr := 0; data := dat |}).

Definition Add (b : Buff) (d : slice) : result Buff :=
  (* add data and increment pointer *)
  dat ← store (data b) (ptr b) d;
  let p := wrap_int (ptr b + 1) in
  (* wrap pointer back if at end *)
  let p := if p =? size b then 0 else p in
  Ok {| size := size b; mode := mode b; ptr := p; data := dat |}.

Definition Reset (b : Buff) : result Buff :=
  dat ← make_data (size b);
  Ok {| size := size b; mode := mode b; ptr := 0; data := dat |}.

(** [buff = make([]byte, len(data)); copy(buff, data)]. *)
Definition copy_out (d : slice) : slice :=
  Some (copy (make_bytes (len d)) (contents d)).

Definition GetRecent (b : Buff) : result slice :=
  if ptr b =? 0 then
    (* if pointer at 0, get last element in data *)
    d ← index (data b) (size b - 1);
    match d with
    | None => Ok None
    | Some _ => Ok (copy_out d)
    end
  else
    (* pointer not at 0, get element before pointer *)
    d ← index (data b) (ptr b - 1);
    Ok (copy_out d).

(** Index sequences of the four loop headers.
    [for i := lo; i < hi; i++] visits lo, lo+1, ..., hi-1;
    [for i := hi - 1; i >= lo; i--] visits hi-1, ..., lo+1, lo. *)
Definition upto (lo hi : Z) : list Z := seqZ lo (hi - lo).
Definition downto (hi lo : Z) : list Z := reverse (seqZ lo (hi - lo)).

(** One scanning loop of [GetOldest]: [Some buff] when the loop returned a
    copy of the first non-nil slot, [None] when it ran to its end. *)
Fixpoint scan_non_nil (d : list slice) (idx : list Z) : result (option slice) :=
  match idx with
  | [] => Ok None
  | i :: idx' =>
      s ← index d i;
      match s with
      | Some _ => Ok (Some (copy_out s))
      | None => scan_non_nil d idx'
      end
  end.

Definition GetOldest (b : Buff) : result slice :=
  (* pointer to end (scanning right) *)
  r ← scan_non_nil (data b) (upto (ptr b) (size b));
  match r with
  | Some buf => Ok buf
  | None =>
      (* start to pointer (scanning right) *)
      r ← scan_non_nil (data b) (upto 0 (ptr b));
      match r with
      | Some buf => Ok buf
      | None => Ok None
      end
  end.

(** One scanning loop of [testRecent]/[testOldest]: [true] when the loop
    returned true, [false] when it ran to its end. *)
Fixpoint scan_equal (key : slice) (d : list slice) (idx : list Z) : result bool :=
  match idx with
  | [] => Ok false
  | i :: idx' =>
      s ← index d i;
      if bytes_Equal key s then Ok true else scan_equal key d idx'
  end.

Definition testRecent (b : Buff) (key : slice) : result bool :=
  (* pointer to start (scanning left) *)
  found ← scan_equal key (data b) (downto (ptr b) 0);
  if (found : bool) then Ok true
  else
    (* end to pointer (scanning left) *)
    found ← scan_equal key (data b) (downto (size b) (ptr b));
    if (found : bool) then Ok true else Ok false.

Definition testOldest (b : Buff) (key : slice) : result bool :=
  (* pointer to end (scanning right) *)
  found ← scan_equal key (data b) (upto (ptr b) (size b));
  if (found : bool) then Ok true
  else
    (* start to pointer (scanning right) *)
    found ← scan_equal key (data b) (upto 0 (ptr b));
    if (found : bool) then Ok true else Ok false.

Definition Test (b : Buff) (key : slice) : result bool :=
  if mode b =? Oldest then testOldest b key else testRecent b key.

(** ** Callers: sequences of method calls *)

(** [b.Add(r0); b.Add(r1); ...] *)
Fixpoint adds (b : Buff) (rs : list slice) : result Buff :=
  match rs with
  | [] => Ok b
  | r :: rs' => b' ← Add b r; adds b' rs'
  end.

(** The exported methods of a [*Buff]. *)
Inductive op : Type :=
  | OpAdd (d : slice)
  | OpReset
  | OpTest (key : slice)
  | OpGetRecent
  | OpGetOldest.

Inductive value : Type :=
  | VUnit
  | VBool (x : bool)
  | VBytes (s : slice).

(** One method call: the buffer afterwards and the value returned. The
    three readers write no field of the buffer. *)
Definition exec (b : Buff) (o : op) : result (Buff * value) :=
  match o with
  | OpAdd d => b' ← Add b d; Ok (b', VUnit)
  | OpReset => b' ← Reset b; Ok (b', VUnit)
  | OpTest key => x ← Test b key; Ok (b, VBool x)
  | OpGetRecent => s ← GetRecent b; Ok (b, VBytes s)
  | OpGetOldest => s ← GetOldest b; Ok (b, VBytes s)
  end.

Fixpoint run (b : Buff) (os : list op) : result Buff :=
  match os with
  | [] => Ok b
  | o :: os' => r ← exec b o; run r.1 os'
  end.

(** States a program can reach: [Init] with arguments of its parameter
    types, then any method calls. *)
Inductive reachable : Buff → Prop :=
  | reach_Init sz m b :
      is_int sz → is_uint8 m → Init sz m = Ok (inr b) → reachable b
  | reach_exec b o b' v :
      reachable b → exec b o = Ok (b', v) → reachable b'.

(** Buffers as [Init] or [Reset] leave them. *)
Inductive cleared : Buff → Prop :=
  | cleared_Init sz m b :
      is_int sz → is_uint8 m → Init sz m = Ok (inr b) → cleared b
  | cleared_Reset b0 b :
      reachable b0 → Reset b0 = Ok b → cleared b.

(** ** Representation invariant and logical contents *)

Definition wf (b : Buff) : Prop :=
  1 <= size b <= int_max ∧
  0 <= ptr b < size b ∧
  Z.of_nat (length (data b)) = size b.

(** A size that [make] accepts: what [Reset] needs to allocate again. *)
Definition fits (b : Buff) : Prop := size b <= max_slots.

(** Same slots and pointer; the search modes may differ. *)
Definition same_store (b1 b2 : Buff) : Prop :=
  size b1 = size b2 ∧ ptr b1 = ptr b2 ∧ data b1 = data b2.

(** All slots nil and the pointer at 0: the state after [Init] or [Reset]. *)
Definition fresh (b : Buff) : Prop :=
  wf b ∧ ptr b = 0 ∧ data b = replicate (Z.to_nat (size b)) None.

(** The slots in writing order, the next one to be overwritten first. *)
Definition view (b : Buff) : list slice :=
  drop (Z.to_nat (ptr b)) (data b) ++ take (Z.to_nat (ptr b)) (data b).

(** First non-nil slot of a sequence of slots. *)
Fixpoint first_non_nil (v : list slice) : slice :=
  match v with
  | [] => None
  | Some l :: _ => Some l
  | None :: v' => first_non_nil v'
  end.

(** [picks d idx sel]: reading [d] at the indices [idx], in this order,
    succeeds and yields the slots [sel]. *)
Definition picks (d : list slice) (idx : list Z) (sel : list slice) : Prop :=
  Forall2 (fun i s => index d i = Ok s) idx sel.

(** The slot [GetRecent] reads: the one before the pointer, the last one
    when the pointer is 0. *)
Definition recent_index (b : Buff) : Z :=
  if ptr b =? 0 then size b - 1 else ptr b - 1.

(** [[]byte("...")] *)
Definition bytes_of (l : list byte) : slice := Some l.

(** ** The test helper [intToByte] *)

(** [byte(v)]: the low eight bits of an integer. *)
Definition byte_of_int (v : Z) : byte :=
  match Byte.of_N (Z.to_N (v mod 256)) with
  | Some x => x
  | None => x00
  end.

(** [b[i] = x] on a byte slice. *)
Definition set_byte (b : list byte) (i : nat) (x : byte) : result (list byte) :=
  if (i <? length b)%nat then Ok (<[i := x]> b) else Panic.

(** [intToByte(b, v)] writes [b] in place; the model returns the bytes of
    [b] afterwards. [v >> k] on an [int] is the arithmetic shift. *)
Definition intToByte (b : list byte) (v : Z) : result (list byte) :=
  if (3 <? length b)%nat then  (* _ = b[3] // memory safety *)
    b ← set_byte b 0 (byte_of_int v);
    b ← set_byte b 1 (byte_of_int (Z.shiftr v 8));
    b ← set_byte b 2 (byte_of_int (Z.shiftr v 16));
    set_byte b 3 (byte_of_int (Z.shiftr v 24))
  else Panic.

(** The integer a byte sequence stands for, least significant byte
    first. *)
Fixpoint le_decode (l : list byte) : Z :=
  match l with
  | [] => 0
  | x :: l' => Z.of_N (Byte.to_N x) + 256 * le_decode l'
  end.

(** ** The publisher's [bodyFrom] (emit_log.go) *)

(** [strings.Join(elems, sep)]: the elements with [sep] between them. *)
Fixpoint Join (elems : list String.string) (sep : String.string) : String.string :=
  match elems with
  | [] => String.EmptyString
  | e :: rest =>
      match rest with
      | [] => e
      | _ :: _ => String.append e (String.append sep (Join rest sep))
      end
  end.

(** [l[i]] on a slice of strings. *)
Definition index_string (l : list String.string) (i : nat) : result String.string :=
  match l !! i with
  | Some x => Ok x
  | None => Panic
  end.

(** [l[1:]]: panics on an empty slice. *)
Definition slice_from_1 (l : list String.string) : result (list String.string) :=
  match l with
  | [] => Panic
  | _ :: rest => Ok rest
  end.

(** [bodyFrom(args)]; the package variable [os.Args], which the condition
    reads, is the parameter [osArgs]. [||] evaluates its right operand only
    when the left one is false. *)
Definition bodyFrom (osArgs args : list String.string) : result String.string :=
  c ← (if (length args <? 2)%nat then Ok true
       else a ← index_string osArgs 1; Ok (String.eqb a String.EmptyString));
  if (c : bool) then Ok "hello"%string
  else rest ← slice_from_1 args; Ok (Join rest " "%string).

(** ** Slices as references: what the buffer shares with its caller

    A second reading of the same methods, in which a slice is a header
    pointing into an array of a heap, as in Go. [Add] stores the header
    it is given; [GetRecent] and [GetOldest] allocate the array they
    return. The value-level methods above are this reading with every
    header replaced by the bytes it shows. *)

Definition result_map {A B : Type} (f : A → B) (r : result A) : result B :=
  match r with
  | Ok a => Ok (f a)
  | Panic => Panic
  end.

Module shared.

(** A non-nil slice header: the array it points into, its first index
    there and its length. *)
Record ref : Type := mkRef { arr : nat; off : nat; rlen : nat }.

(** [[]byte]: nil or a header. *)
Definition hslice : Type := option ref.

(** The arrays allocated so far, by address. *)
Definition heap : Type := list (list byte).

(** The bytes a slice shows in a heap. *)
Definition load (h : heap) (s : hslice) : slice :=
  match s with
  | None => None
  | Some r => Some (take (rlen r) (drop (off r) (default [] (h !! arr r))))
  end.

(** A header that lies within an allocated array. *)
Definition valid (h : heap) (r : ref) : Prop :=
  ∃ a, h !! arr r = Some a ∧ (off r + rlen r ≤ length a)%nat.

(** [s[i] = x]. *)
Definition write (h : heap) (s : hslice) (i : nat) (x : byte) : result heap :=
  match s with
  | None => Panic
  | Some r =>
      if (i <? rlen r)%nat then
        match h !! arr r with
        | Some a => Ok (<[arr r := <[(off r + i)%nat := x]> a]> h)
        | None => Panic
        end
      else Panic
  end.

(** [len(s)]. *)
Definition hlen (s : hslice) : nat :=
  match s with
  | None => 0
  | Some r => rlen r
  end.

Definition intToByte (h : heap) (b : hslice) (v : Z) : result heap :=
  if (3 <? hlen b)%nat then  (* _ = b[3] // memory safety *)
    h ← write h b 0 (byte_of_int v);
    h ← write h b 1 (byte_of_int (Z.shiftr v 8));
    h ← write h b 2 (byte_of_int (Z.shiftr v 16));
    write h b 3 (byte_of_int (Z.shiftr v 24))
  else Panic.

(** [buff = make([]byte, len(data)); copy(buff, data)]: a new array, at
    the next free address, and the slice over all of it. *)
Definition copy_out (h : heap) (d : hslice) : heap * hslice :=
  let bytes := copy (make_bytes (len (load h d))) (contents (load h d)) in
  (h ++ [bytes], Some {| arr := length h; off := 0; rlen := length bytes |}).

Record Buff : Type := mkBuff {
  size : Z;
  mode : Mode;
  ptr : Z;
  data : list hslice
}.

Definition index (d : list hslice) (i : Z) : result hslice :=
  if 0 <=? i then
    match d !! Z.to_nat i with
    | Some s => Ok s
    | None => Panic
    end
  else Panic.

Definition store (d : list hslice) (i : Z) (v : hslice) : result (list hslice) :=
  if (0 <=? i) && (i <? Z.of_nat (length d)) then Ok (<[Z.to_nat i := v]> d)
  else Panic.

Definition Add (b : Buff) (d : hslice) : result Buff :=
  dat ← store (data b) (ptr b) d;
  let p := wrap_int (ptr b + 1) in
  let p := if p =? size b then 0 else p in
  Ok {| size := size b; mode := mode b; ptr := p; data := dat |}.

Definition GetRecent (h : heap) (b : Buff) : result (heap * hslice) :=
  if ptr b =? 0 then
    d ← index (data b) (size b - 1);
    match d with
    | None => Ok (h, None)
    | Some _ => Ok (copy_out h d)
    end
  else
    d ← index (data b) (ptr b - 1);
    Ok (copy_out h d).

Fixpoint scan_non_nil (h : heap) (d : list hslice) (idx : list Z)
    : result (option (heap * hslice)) :=
  match idx with
  | [] => Ok None
  | i :: idx' =>
      s ← index d i;
      match s with
      | Some _ => Ok (Some (copy_out h s))
      | None => scan_non_nil h d idx'
      end
  end.

Definition GetOldest (h : heap) (b : Buff) : result (heap * hslice) :=
  r ← scan_non_nil h (data b) (upto (ptr b) (size b));
  match r with
  | Some res => Ok res
  | None =>
      r ← scan_non_nil h (data b) (upto 0 (ptr b));
      match r with
      | Some res => Ok res
      | None => Ok (h, None)
      end
  end.

Fixpoint scan_equal (h : heap) (key : hslice) (d : list hslice) (idx : list Z)
    : result bool :=
  match idx with
  | [] => Ok false
  | i :: idx' =>
      s ← index d i;
      if bytes_Equal (load h key) (load h s) then Ok true
      else scan_equal h key d idx'
  end.

Definition testRecent (h : heap) (b : Buff) (key : hslice) : result bool :=
  found ← scan_equal h key (data b) (downto (ptr b) 0);
  if (found : bool) then Ok true
  else
    found ← scan_equal h key (data b) (downto (size b) (ptr b));
    if (found : bool) then Ok true else Ok false.

Definition testOldest (h : heap) (b : Buff) (key : hslice) : result bool :=
  found ← scan_equal h key (data b) (upto (ptr b) (size b));
  if (found : bool) then Ok true
  else
    found ← scan_equal h key (data b) (upto 0 (ptr b));
    if (found : bool) then Ok true else Ok false.

Definition Test (h : heap) (b : Buff) (key : hslice) : result bool :=
  if mode b =? Oldest then testOldest h b key else testRecent h b key.

(** The loop of [TestOverwrite] and [TestGetRecent], for one buffer:
    [for i in idx { intToByte(buff, i); b.Add(buff) }]. *)
Fixpoint fill (h : heap) (b : Buff) (buf : hslice) (idx : list Z)
    : result (heap * Buff) :=
  match idx with
  | [] => Ok (h, b)
  | i :: idx' =>
      h' ← intToByte h buf i;
      b' ← Add b buf;
      fill h' b' buf idx'
  end.

End shared.

(** The buffer of bytes that a buffer of headers shows in a heap. *)
Definition abs (h : shared.heap) (b : shared.Buff) : Buff :=
  mkBuff (shared.size b) (shared.mode b) (shared.ptr b)
    (shared.load h <$> shared.data b).

(** The bytes of a returned slice, in the heap returned with it. *)
Definition loaded (r : shared.heap * shared.hslice) : slice :=
  shared.load r.1 r.2.

(** ** Concrete records and buffers *)

Definition ra : slice := bytes_of [x61].
Definition rb : slice := bytes_of [x62].
Definition rc : slice := bytes_of [x63].
Definition rd : slice := bytes_of [x64].
Definition re : slice := bytes_of [x65].
Definition rx : slice := bytes_of [x78].
(** [[]byte{}]: non-nil, zero length. *)
Definition rempty : slice := bytes_of [].

(** [Init(1, Recent)] and [Init(2, Recent)]. *)
Definition b1 : Buff := {| size := 1; mode := Recent; ptr := 0; data := [None] |}.
Definition b2 : Buff :=
  {| size := 2; mode := Recent; ptr := 0; data := [None; None] |}.

(** [b2] after [Add(ra)] and [Add(rb)]. *)
Definition b2full : Buff :=
  {| size := 2; mode := Recent; ptr := 0; data := [ra; rb] |}.

(** [b, err := Init(sz, m); if err != nil { panic(err) }; ...], as in the
    example program. *)
Definition after_Init (sz : Z) (m : Mode) (k : Buff → result Buff) : result Buff :=
  r ← Init sz m;
  match r with
  | inl _ => Panic
  | inr b => k b
  end.

(** Size 4, mode [Recent], after inserting a, b, c, d, e. *)
Definition b4 : result Buff :=
  after_Init 4 Recent (fun b => adds b [ra; rb; rc; rd; re]).

(** A heap with one array of four bytes, the slice over it, and a buffer
    of size 2 with both slots nil. *)
Definition h4 : shared.heap := [[x61; x00; x00; x00]].
Definition buf4 : shared.ref := {| shared.arr := 0; shared.off := 0; shared.rlen := 4 |}.
Definition sb2 : shared.Buff :=
  {| shared.size := 2; shared.mode := Recent; shared.ptr := 0;
     shared.data := [None; None] |}.

(** A buffer of size 1 whose slot is the slice [buf4]. *)
Definition sb1 : shared.Buff :=
  {| shared.size := 1; shared.mode := Recent; shared.ptr := 0;
     shared.data := [Some buf4] |}.

(** ** Tests on concrete buffers *)

Example b4_state :
  b4 = Ok {| size := 4; mode := Recent; ptr := 1; data := [re; rb; rc; rd] |}.
Proof. reflexivity. Qed.

Example b4_Test :
  (b ← b4; Test b ra) = Ok false ∧ (b ← b4; Test b rb) = Ok true ∧
  (b ← b4; GetRecent b) = Ok re ∧ (b ← b4; GetOldest b) = Ok rb.
Proof. repeat split. Qed.

Example b3_fresh :
  (b ← after_Init 3 Recent Ok; GetOldest b) = Ok None ∧
  (b ← after_Init 3 Recent Ok; GetRecent b) = Ok None ∧
  (b ← after_Init 3 Recent (fun b => Add b rx); GetOldest b) = Ok rx ∧
  (b ← after_Init 3 Recent (fun b => Add b rx); GetRecent b) = Ok rx.
Proof. repeat split. Qed.

(** [TestBadParameters]. *)
Example Init_bad :
  Init 0 Recent = Ok (inl errSize) ∧ Init (-1) Recent = Ok (inl errSize) ∧
  Init 1 2 = Ok (inl errMode).
Proof. repeat split. Qed.

(** Out-of-range indices panic. *)
Example index_panics :
  index [ra] 1 = Panic ∧ index [ra] (-1) = Panic ∧ store [ra] 1 rb = Panic.
Proof. repeat split. Qed.

(** ** Bytes *)

Lemma bytes_eqb_eq (a b : list byte) : bytes_eqb a b = true ↔ a = b.
Proof.
  revert b. induction a as [|x a IH]; intros [|y b]; simpl; try (split; congruence).
  rewrite andb_true_iff, IH. split.
  - intros [Hxy ->]. by rewrite (byte_dec_bl _ _ Hxy).
  - intros [= -> ->]. split; [by apply byte_dec_lb|done].
Qed.

Lemma bytes_Equal_true (a b : slice) :
  bytes_Equal a b = true ↔ contents a = contents b.
Proof. apply bytes_eqb_eq. Qed.

(** A nil slot compares equal to exactly the keys of length 0. *)
Lemma bytes_Equal_nil (key : slice) :
  bytes_Equal key None = (len key =? 0)%nat.
Proof. unfold bytes_Equal, len. by destruct (contents key). Qed.

Lemma copy_make_bytes (l : list byte) : copy (make_bytes (length l)) l = l.
Proof.
  unfold copy, make_bytes. rewrite length_replicate, take_ge, drop_ge; try done.
  - by rewrite app_nil_r.
  - by rewrite length_replicate.
Qed.

Lemma copy_out_contents (d : slice) : copy_out d = Some (contents d).
Proof. unfold copy_out, len. by rewrite copy_make_bytes. Qed.

(** ** Integers *)

Lemma wrap_int_id (z : Z) : is_int z → wrap_int z = z.
Proof.
  unfold is_int, int_min, int_max, wrap_int. intros H.
  rewrite Z.mod_small; lia.
Qed.

(** ** Indexing *)

Lemma index_Ok (d : list slice) (i : nat) (s : slice) :
  d !! i = Some s → index d (Z.of_nat i) = Ok s.
Proof.
  intros H. unfold index.
  destruct (Z.leb_spec 0 (Z.of_nat i)); [|lia]. by rewrite Nat2Z.id, H.
Qed.

Lemma store_Ok (d : list slice) (i : nat) (v : slice) :
  (i < length d)%nat → store d (Z.of_nat i) v = Ok (<[i := v]> d).
Proof.
  intros H. unfold store.
  destruct (Z.leb_spec 0 (Z.of_nat i)); [|lia].
  destruct (Z.ltb_spec (Z.of_nat i) (Z.of_nat (length d))); [|lia].
  by rewrite Nat2Z.id.
Qed.

Lemma picks_upto (d : list slice) (lo n : nat) :
  (lo + n ≤ length d)%nat →
  picks d (upto (Z.of_nat lo) (Z.of_nat (lo + n))) (take n (drop lo d)).
Proof.
  intros Hle. unfold picks, upto.
  replace (Z.of_nat (lo + n) - Z.of_nat lo) with (Z.of_nat n) by lia.
  apply Forall2_same_length_lookup_2.
  - apply Forall2_same_length, Forall2_true; [done|].
    rewrite length_seqZ, length_take, length_drop. lia.
  - intros i z s Hz Hs. apply lookup_seqZ in Hz as [-> Hi].
    rewrite lookup_take_lt, lookup_drop in Hs by lia.
    replace (Z.of_nat lo + Z.of_nat i) with (Z.of_nat (lo + i)) by lia.
    by apply index_Ok.
Qed.

Lemma scan_equal_picks (key : slice) (d : list slice) idx sel :
  picks d idx sel →
  scan_equal key d idx = Ok (existsb (bytes_Equal key) sel).
Proof.
  induction 1 as [|i s idx sel Hi _ IH]; simpl; [done|].
  rewrite Hi. simpl. by destruct (bytes_Equal key s).
Qed.

Lemma scan_non_nil_picks (d : list slice) idx sel :
  picks d idx sel →
  scan_non_nil d idx =
    Ok (match first_non_nil sel with Some l => Some (Some l) | None => None end).
Proof.
  induction 1 as [|i s idx sel Hi _ IH]; simpl; [done|].
  rewrite Hi. simpl. destruct s as [l|]; [|done].
  by rewrite copy_out_contents.
Qed.

Lemma existsb_reverse {A} (f : A → bool) (l : list A) :
  existsb f (reverse l) = existsb f l.
Proof.
  induction l as [|x l IH]; [done|].
  rewrite reverse_cons, existsb_app, IH. simpl. rewrite orb_false_r. apply orb_comm.
Qed.

Lemma first_non_nil_app (u v : list slice) :
  first_non_nil (u ++ v) =
    match first_non_nil u with Some l => Some l | None => first_non_nil v end.
Proof. induction u as [|[l|] u IH]; simpl; done. Qed.

(** ** The readers, in terms of [view] *)

Section Readers.
Variable b : Buff.
Hypothesis Hwf : wf b.

Lemma wf_nat :
  ∃ p n : nat, ptr b = Z.of_nat p ∧ size b = Z.of_nat n ∧
    length (data b) = n ∧ (p < n)%nat ∧ Z.to_nat (ptr b) = p.
Proof.
  destruct Hwf as (Hs & Hp & Hl).
  exists (Z.to_nat (ptr b)), (length (data b)). repeat split; lia.
Qed.

Lemma length_view : length (view b) = length (data b).
Proof.
  unfold view. rewrite length_app, length_drop, length_take.
  destruct wf_nat as (p & n & _ & _ & Hn & Hpn & ->). lia.
Qed.

Lemma picks_tail :
  picks (data b) (upto (ptr b) (size b)) (drop (Z.to_nat (ptr b)) (data b)).
Proof.
  destruct wf_nat as (p & n & -> & -> & Hn & Hpn & _). rewrite Nat2Z.id.
  replace n with (p + (n - p))%nat at 1 by lia.
  rewrite <- (take_ge (drop p (data b)) (n - p)) by (rewrite length_drop; lia).
  apply picks_upto. lia.
Qed.

Lemma picks_head :
  picks (data b) (upto 0 (ptr b)) (take (Z.to_nat (ptr b)) (data b)).
Proof.
  destruct wf_nat as (p & n & -> & _ & Hn & Hpn & _). rewrite Nat2Z.id.
  apply (picks_upto (data b) 0 p). lia.
Qed.

Lemma picks_tail_rev :
  picks (data b) (downto (size b) (ptr b))
    (reverse (drop (Z.to_nat (ptr b)) (data b))).
Proof. apply Forall2_reverse, picks_tail. Qed.

Lemma picks_head_rev :
  picks (data b) (downto (ptr b) 0)
    (reverse (take (Z.to_nat (ptr b)) (data b))).
Proof. apply Forall2_reverse, picks_head. Qed.

Lemma testOldest_view (key : slice) :
  testOldest b key = Ok (existsb (bytes_Equal key) (view b)).
Proof.
  unfold testOldest, view.
  rewrite (scan_equal_picks _ _ _ _ picks_tail),
    (scan_equal_picks _ _ _ _ picks_head), existsb_app. simpl.
  by do 2 destruct (existsb _ _).
Qed.

Lemma testRecent_view (key : slice) :
  testRecent b key = Ok (existsb (bytes_Equal key) (reverse (view b))).
Proof.
  unfold testRecent, view.
  rewrite (scan_equal_picks _ _ _ _ picks_tail_rev),
    (scan_equal_picks _ _ _ _ picks_head_rev), reverse_app, existsb_app. simpl.
  by do 2 destruct (existsb _ _).
Qed.

(** Both scan orders decide membership in the same sequence of slots. *)
Lemma Test_view (key : slice) :
  Test b key = Ok (existsb (bytes_Equal key) (view b)).
Proof.
  unfold Test. destruct (mode b =? Oldest).
  - apply testOldest_view.
  - rewrite testRecent_view. by rewrite existsb_reverse.
Qed.

Lemma GetOldest_view : GetOldest b = Ok (first_non_nil (view b)).
Proof.
  unfold GetOldest, view.
  rewrite (scan_non_nil_picks _ _ _ picks_tail),
    (scan_non_nil_picks _ _ _ picks_head), first_non_nil_app. simpl.
  destruct (first_non_nil (drop _ _)); [done|]. simpl.
  by destruct (first_non_nil (take _ _)).
Qed.

Lemma recent_index_view :
  ∃ d, index (data b) (recent_index b) = Ok d ∧ last (view b) = Some d.
Proof.
  unfold recent_index, view.
  destruct wf_nat as (p & n & Hp & Hs & Hn & Hpn & Hp').
  rewrite Hp', Hp, Hs. destruct (Z.eqb_spec (Z.of_nat p) 0) as [H0|H0].
  - assert (p = 0)%nat as -> by lia. rewrite drop_0, take_0, app_nil_r.
    destruct (data b !! pred n) as [d|] eqn:E.
    + exists d. rewrite last_lookup, Hn. split; [|done].
      replace (Z.of_nat n - 1) with (Z.of_nat (pred n)) by lia. by apply index_Ok.
    + apply lookup_ge_None in E. lia.
  - destruct (data b !! pred p) as [d|] eqn:E.
    + exists d. split.
      * replace (Z.of_nat p - 1) with (Z.of_nat (pred p)) by lia. by apply index_Ok.
      * rewrite last_app, last_lookup, length_take_le by lia.
        rewrite lookup_take_lt by lia. by rewrite E.
    + apply lookup_ge_None in E. lia.
Qed.

Lemma GetRecent_view :
  ∃ d, last (view b) = Some d ∧
    GetRecent b = Ok (if ptr b =? 0 then
                        match d with None => None | Some l => Some l end
                      else Some (contents d)).
Proof.
  destruct recent_index_view as (d & Hi & Hl). exists d. split; [done|].
  unfold GetRecent. unfold recent_index in Hi.
  destruct (ptr b =? 0); rewrite Hi; simpl.
  - destruct d; [|done]. by rewrite copy_out_contents.
  - by rewrite copy_out_contents.
Qed.
End Readers.

(** ** The constructor and the writers *)

Lemma make_data_Ok (n : Z) :
  0 <= n <= max_slots → make_data n = Ok (replicate (Z.to_nat n) None).
Proof.
  unfold make_data. change max_slots with 11728124029610.
  change maxAlloc with 281474976710656. change slot_bytes with 24.
  intros Hn. destruct (Z.ltb_spec n 0); [lia|].
  by destruct (Z.ltb_spec 281474976710656 (24 * n)); [lia|].
Qed.

Lemma make_data_Panic (n : Z) : max_slots < n → make_data n = Panic.
Proof.
  unfold make_data. change max_slots with 11728124029610.
  change maxAlloc with 281474976710656. change slot_bytes with 24.
  intros Hn. destruct (Z.ltb_spec 281474976710656 (24 * n)); [|lia].
  by rewrite orb_true_r.
Qed.

Lemma make_data_inv (n : Z) (d : list slice) :
  make_data n = Ok d → 0 <= n <= max_slots ∧ d = replicate (Z.to_nat n) None.
Proof.
  intros H. destruct (Z.le_gt_cases n max_slots) as [Hle|Hgt].
  - destruct (Z.le_gt_cases 0 n) as [H0|H0].
    + rewrite make_data_Ok in H by done. by injection H as <-.
    + unfold make_data in H. by destruct (Z.ltb_spec n 0); [|lia].
  - rewrite make_data_Panic in H by lia. done.
Qed.

Lemma max_slots_int : max_slots < int_max.
Proof. by vm_compute. Qed.

Lemma Init_inr (sz : Z) (m : Mode) (b : Buff) :
  Init sz m = Ok (inr b) →
  1 <= sz <= max_slots ∧ (m = Recent ∨ m = Oldest) ∧
  b = {| size := sz; mode := m; ptr := 0; data := replicate (Z.to_nat sz) None |}.
Proof.
  unfold Init, Recent, Oldest. destruct (Z.ltb_spec sz 1); [done|].
  destruct (Z.eqb_spec m 0), (Z.eqb_spec m 1); cbn [negb andb]; try done;
    (destruct (make_data sz) as [d|] eqn:E; [|done];
     apply make_data_inv in E as [? ->]; intros [= <-];
     split; [lia|]; split; [auto|done]).
Qed.

Lemma Init_Ok (sz : Z) (m : Mode) :
  1 <= sz <= max_slots → m = Recent ∨ m = Oldest →
  Init sz m =
    Ok (inr {| size := sz; mode := m; ptr := 0;
               data := replicate (Z.to_nat sz) None |}).
Proof.
  intros Hsz Hm. unfold Init. destruct (Z.ltb_spec sz 1); [lia|].
  rewrite make_data_Ok by lia. by destruct Hm as [-> | ->].
Qed.

Lemma fresh_intro (sz : Z) (m : Mode) :
  1 <= sz <= int_max →
  fresh {| size := sz; mode := m; ptr := 0; data := replicate (Z.to_nat sz) None |}.
Proof.
  intros Hsz. repeat split; simpl; try lia. rewrite length_replicate. lia.
Qed.

Lemma Init_fresh (sz : Z) (m : Mode) (b : Buff) :
  Init sz m = Ok (inr b) → fresh b ∧ fits b.
Proof.
  intros (Hsz & _ & ->)%Init_inr. pose proof max_slots_int. split.
  - apply fresh_intro. lia.
  - unfold fits. simpl. lia.
Qed.

Lemma fresh_view (b : Buff) :
  fresh b → view b = replicate (Z.to_nat (size b)) None.
Proof.
  intros (_ & Hp & Hd). unfold view. rewrite Hp, Hd. simpl.
  by rewrite drop_0, app_nil_r.
Qed.

Lemma Reset_fresh (b : Buff) :
  wf b → fits b →
  ∃ b', Reset b = Ok b' ∧ fresh b' ∧ size b' = size b ∧ mode b' = mode b.
Proof.
  intros (Hs & _ & _) Hfit. unfold Reset, fits in *.
  rewrite make_data_Ok by lia. simpl.
  eexists; split; [done|]. split; [|done]. by apply fresh_intro.
Qed.

Lemma Add_view (b : Buff) (r : slice) :
  wf b →
  ∃ b', Add b r = Ok b' ∧ wf b' ∧ size b' = size b ∧ mode b' = mode b ∧
    ptr b' = (if ptr b + 1 =? size b then 0 else ptr b + 1) ∧
    data b' = <[Z.to_nat (ptr b) := r]> (data b) ∧
    view b' = drop 1 (view b) ++ [r].
Proof.
  intros Hwf. destruct (wf_nat b Hwf) as (p & n & Hp & Hs & Hn & Hpn & Hp').
  destruct Hwf as (Hsz & _ & _).
  unfold Add. rewrite Hp, store_Ok by lia. simpl.
  rewrite wrap_int_id by (unfold is_int, int_min; lia).
  eexists; split; [done|]. simpl.
  assert (Hview : view {| size := size b; mode := mode b;
                    ptr := (if Z.of_nat p + 1 =? size b then 0 else Z.of_nat p + 1);
                    data := <[p := r]> (data b) |} = drop 1 (view b) ++ [r]).
  { unfold view. simpl. rewrite Hp'.
    destruct (lookup_lt_is_Some_2 (data b) p) as [x Hx]; [lia|].
    rewrite insert_take_drop by lia.
    rewrite (drop_S _ _ _ Hx). simpl. rewrite drop_0.
    destruct (Z.eqb_spec (Z.of_nat p + 1) (size b)) as [E|E].
    - simpl. rewrite drop_0, (drop_ge _ (S p)) by lia. by rewrite app_nil_r.
    - replace (Z.to_nat (Z.of_nat p + 1)) with (S p) by lia.
      assert (length (take p (data b) ++ [r]) = S p) as Hlen
        by (rewrite length_app, length_take; simpl; lia).
      rewrite (cons_middle r), (app_assoc (take p (data b))).
      rewrite drop_app_length', take_app_length' by done.
      by rewrite app_assoc. }
  repeat split; simpl; try done.
  - lia.
  - lia.
  - destruct (Z.eqb_spec (Z.of_nat p + 1) (size b)); lia.
  - destruct (Z.eqb_spec (Z.of_nat p + 1) (size b)); lia.
  - rewrite length_insert. lia.
  - by rewrite Nat2Z.id.
Qed.

Lemma adds_view (rs : list slice) (b : Buff) :
  wf b →
  ∃ b', adds b rs = Ok b' ∧ wf b' ∧ size b' = size b ∧ mode b' = mode b ∧
    view b' = drop (length rs) (view b ++ rs).
Proof.
  revert b. induction rs as [|r rs IH]; intros b Hwf.
  - exists b. simpl. by rewrite drop_0, app_nil_r.
  - destruct (Add_view b r Hwf) as (b1 & HA & Hwf1 & Hs1 & Hm1 & _ & _ & Hv1).
    destruct (IH b1 Hwf1) as (b' & HR & Hwf' & Hs' & Hm' & Hv').
    exists b'. simpl. rewrite HA. simpl.
    split; [done|]. split; [done|]. split; [congruence|]. split; [congruence|].
    rewrite Hv', Hv1.
    assert (0 < length (view b))%nat as Hlen.
    { rewrite length_view by done. destruct Hwf as (? & ? & ?). lia. }
    destruct (view b) as [|x v]; [simpl in Hlen; lia|]. simpl.
    by rewrite drop_0, <- app_assoc.
Qed.

(** Every method call succeeds on a well-formed buffer and leaves it
    well-formed, with the pointer moved as the method says. *)
Lemma exec_wf (b : Buff) (o : op) :
  wf b → fits b →
  ∃ b' v, exec b o = Ok (b', v) ∧ wf b' ∧ size b' = size b ∧ mode b' = mode b ∧
    ptr b' = match o with
             | OpAdd _ => if ptr b + 1 =? size b then 0 else ptr b + 1
             | OpReset => 0
             | _ => ptr b
             end.
Proof.
  intros Hwf Hfit. destruct o as [d| |key| |]; simpl.
  - destruct (Add_view b d Hwf) as (b' & -> & ? & ? & ? & ? & _). simpl. eauto 10.
  - destruct (Reset_fresh b Hwf Hfit) as (b' & -> & (? & ? & _) & ? & ?).
    simpl. eauto 10.
  - rewrite Test_view by done. simpl. eauto 10.
  - destruct (GetRecent_view b Hwf) as (d & _ & ->). simpl. eauto 10.
  - rewrite GetOldest_view by done. simpl. eauto 10.
Qed.

Lemma reachable_inv (b : Buff) : reachable b → wf b ∧ fits b.
Proof.
  induction 1 as [sz m b _ _ HI | b o b' v _ [IH Hfit] Hex].
  - by destruct (Init_fresh sz m b HI) as [(? & _) ?].
  - destruct (exec_wf b o IH Hfit) as (b1 & v1 & Hex1 & Hwf1 & Hs1 & _).
    rewrite Hex in Hex1. injection Hex1 as -> ->.
    split; [done|]. unfold fits in *. by rewrite Hs1.
Qed.

Lemma reachable_wf (b : Buff) : reachable b → wf b.
Proof. by intros [? _]%reachable_inv. Qed.

Lemma reachable_fits (b : Buff) : reachable b → fits b.
Proof. by intros [_ ?]%reachable_inv. Qed.

Lemma run_wf (os : list op) (b : Buff) :
  wf b → fits b →
  ∃ b', run b os = Ok b' ∧ wf b' ∧ size b' = size b ∧ mode b' = mode b.
Proof.
  revert b. induction os as [|o os IH]; intros b Hwf Hfit; simpl; [eauto|].
  destruct (exec_wf b o Hwf Hfit) as (b1 & v1 & -> & Hwf1 & Hs1 & Hm1 & _). simpl.
  destruct (IH b1 Hwf1) as (b' & -> & ? & ? & ?).
  { unfold fits in *. by rewrite Hs1. }
  exists b'. split; [done|]. split; [done|]. split; congruence.
Qed.

(** ** Cleared buffers *)

Lemma cleared_fresh (b : Buff) : cleared b → fresh b.
Proof.
  destruct 1 as [sz m b Hsz _ HI | b0 b Hr HR].
  - by destruct (Init_fresh sz m b HI).
  - destruct (Reset_fresh b0 (reachable_wf b0 Hr) (reachable_fits b0 Hr))
      as (b' & HR' & Hf & _).
    rewrite HR in HR'. by injection HR' as ->.
Qed.

Lemma existsb_replicate {A} (f : A → bool) (n : nat) (x : A) :
  existsb f (replicate n x) = (0 <? n)%nat && f x.
Proof.
  induction n as [|n IH]; [done|]. simpl replicate. simpl existsb.
  rewrite IH. simpl. by destruct (f x), (0 <? n)%nat.
Qed.

Lemma first_non_nil_replicate (n : nat) (v : list slice) :
  first_non_nil (replicate n None ++ v) = first_non_nil v.
Proof. by induction n. Qed.

Lemma fresh_Test (b : Buff) (key : slice) :
  fresh b → Test b key = Ok (len key =? 0)%nat.
Proof.
  intros Hf. pose proof Hf as (Hwf & _ & _).
  rewrite Test_view, fresh_view, existsb_replicate, bytes_Equal_nil by done.
  destruct Hwf as (Hs & _ & _).
  by destruct (Nat.ltb_spec 0 (Z.to_nat (size b))); [|lia].
Qed.

Lemma fresh_GetRecent (b : Buff) : fresh b → GetRecent b = Ok None.
Proof.
  intros (Hwf & Hp & Hd).
  destruct (GetRecent_view b Hwf) as (d & Hl & ->). rewrite Hp. simpl.
  rewrite (fresh_view b) in Hl by done.
  apply last_Some_elem_of, elem_of_replicate in Hl as [-> _]. done.
Qed.

Lemma fresh_GetOldest (b : Buff) : fresh b → GetOldest b = Ok None.
Proof.
  intros Hf. pose proof Hf as (Hwf & _ & _).
  rewrite GetOldest_view, fresh_view by done.
  by rewrite <- (app_nil_r (replicate _ _)), first_non_nil_replicate.
Qed.

(** ** Sequences of insertions *)

Lemma adds_app (l1 l2 : list slice) (b : Buff) :
  adds b (l1 ++ l2) = (b1 ← adds b l1; adds b1 l2).
Proof.
  revert b. induction l1 as [|r l1 IH]; intros b; simpl; [done|].
  destruct (Add b r) as [b1|]; simpl; [apply IH|done].
Qed.

Lemma view_head (b : Buff) :
  wf b → ∃ d, index (data b) (ptr b) = Ok d ∧ head (view b) = Some d.
Proof.
  intros Hwf. destruct (wf_nat b Hwf) as (p & n & Hp & Hs & Hn & Hpn & Hp').
  destruct (lookup_lt_is_Some_2 (data b) p) as [d Hd]; [lia|].
  exists d. split.
  - rewrite Hp. by apply index_Ok.
  - unfold view. rewrite Hp', (drop_S _ _ _ Hd). done.
Qed.

Lemma existsb_bytes_Equal_elem (r : slice) (v : list slice) :
  r ∈ v → existsb (bytes_Equal r) v = true.
Proof.
  intros Hin. apply existsb_exists. exists r. split.
  - by apply list_elem_of_In.
  - by apply bytes_Equal_true.
Qed.

Lemma existsb_bytes_Equal_none (r : slice) (v : list slice) :
  (∀ x, x ∈ v → contents x ≠ contents r) →
  existsb (bytes_Equal r) v = false.
Proof.
  intros Hne. apply not_true_is_false. intros (x & Hin & Heq)%existsb_exists.
  apply bytes_Equal_true in Heq. apply list_elem_of_In in Hin.
  by apply (Hne x Hin).
Qed.

(** After [size] insertions the buffer holds exactly the inserted records,
    whatever it held before. *)
Lemma adds_full (b : Buff) (r0 : slice) (rs : list slice) :
  wf b → Z.of_nat (length rs) = size b →
  ∃ b', adds b (r0 :: rs) = Ok b' ∧ wf b' ∧ view b' = rs.
Proof.
  intros Hwf Hlen.
  destruct (adds_view (r0 :: rs) b Hwf) as (b' & HA & Hwf' & _ & _ & Hv).
  exists b'. split; [done|]. split; [done|].
  rewrite Hv, (cons_middle r0), app_assoc. apply drop_app_length'.
  rewrite length_app, length_view by done. simpl.
  destruct Hwf as (_ & _ & Hd). lia.
Qed.

(** ** Two buffers that differ in their search mode only *)

Lemma same_store_view (b1 b2 : Buff) : same_store b1 b2 → view b1 = view b2.
Proof. intros (_ & Hp & Hd). unfold view. by rewrite Hp, Hd. Qed.

Lemma exec_same_store (b1 b2 : Buff) (o : op) :
  wf b1 → wf b2 → fits b1 → same_store b1 b2 →
  ∃ b1' b2' v1 v2, exec b1 o = Ok (b1', v1) ∧ exec b2 o = Ok (b2', v2) ∧
    wf b1' ∧ wf b2' ∧ fits b1' ∧ same_store b1' b2' ∧
    mode b1' = mode b1 ∧ mode b2' = mode b2.
Proof.
  intros Hwf1 Hwf2 Hfit1 Hsame. pose proof Hsame as (Hs & Hp & Hd).
  assert (fits b2) as Hfit2 by (unfold fits in *; by rewrite <- Hs).
  destruct o as [d| |key| |]; simpl.
  - destruct (Add_view b1 d Hwf1) as (b1' & -> & ? & Hs1 & ? & Hp1 & Hd1 & _).
    destruct (Add_view b2 d Hwf2) as (b2' & -> & ? & Hs2 & ? & Hp2 & Hd2 & _).
    simpl. exists b1', b2', VUnit, VUnit. split_and!; try done.
    { unfold fits in *. by rewrite Hs1. }
    split_and!; [congruence| |].
    + rewrite Hp1, Hp2. by rewrite Hs, Hp.
    + rewrite Hd1, Hd2. by rewrite Hd, Hp.
  - destruct (Reset_fresh b1 Hwf1 Hfit1) as (b1' & -> & (? & Hp1 & Hd1) & Hs1 & ?).
    destruct (Reset_fresh b2 Hwf2 Hfit2) as (b2' & -> & (? & Hp2 & Hd2) & Hs2 & ?).
    simpl. exists b1', b2', VUnit, VUnit. split_and!; try done.
    { unfold fits in *. by rewrite Hs1. }
    split_and!; [congruence|congruence|].
    rewrite Hd1, Hd2. congruence.
  - rewrite !Test_view by done. simpl. eauto 15.
  - destruct (GetRecent_view b1 Hwf1) as (d1 & _ & ->).
    destruct (GetRecent_view b2 Hwf2) as (d2 & _ & ->).
    simpl. eauto 15.
  - rewrite !GetOldest_view by done. simpl. eauto 15.
Qed.

Lemma run_same_store (os : list op) (b1 b2 : Buff) :
  wf b1 → wf b2 → fits b1 → same_store b1 b2 →
  ∃ b1' b2', run b1 os = Ok b1' ∧ run b2 os = Ok b2' ∧
    wf b1' ∧ wf b2' ∧ same_store b1' b2' ∧
    mode b1' = mode b1 ∧ mode b2' = mode b2.
Proof.
  revert b1 b2. induction os as [|o os IH]; intros b1 b2 Hwf1 Hwf2 Hfit Hsame; simpl.
  - exists b1, b2. done.
  - destruct (exec_same_store b1 b2 o Hwf1 Hwf2 Hfit Hsame)
      as (c1 & c2 & v1 & v2 & -> & -> & Hc1 & Hc2 & Hcf & Hc & Hm1 & Hm2).
    simpl. destruct (IH c1 c2 Hc1 Hc2 Hcf Hc)
      as (b1' & b2' & -> & -> & ? & ? & ? & Hm1' & Hm2').
    exists b1', b2'. split_and!; try done; congruence.
Qed.

(** ** Membership on cleared buffers *)

(** What [Test] computes on a freshly created or freshly reset buffer:
    false for every key of non-zero length, true for the keys of length
    zero (nil or empty), since a nil slot compares equal to exactly the
    zero-length keys. *)
Lemma Test_cleared (b : Buff) (key : slice) :
  cleared b →
  Test b key = Ok (len key =? 0)%nat ∧
  bytes_Equal key None = (len key =? 0)%nat.
Proof.
  intros Hc. split.
  - by apply fresh_Test, cleared_fresh.
  - apply bytes_Equal_nil.
Qed.

(** C1 (defect in [Test]): on a freshly created or freshly reset buffer
    [Test] is to be false for every record, the zero-length one included.
    On the buffer that [Init 1 Recent] returns, and on that buffer after
    [Reset], [Test] of the zero-length record is true: [bytes.Equal] takes
    a nil slot for an empty slice and the scans do not skip nil slots, while
    [GetOldest] and [GetRecent] on the same buffer report it empty. So
    [Test] is not false for every record on every cleared buffer. *)
Lemma Test_cleared_zero_length :
  Init 1 Recent = Ok (inr b1) ∧
  Test b1 rempty = Ok true ∧
  (b' ← Reset b1; Test b' rempty) = Ok true ∧
  GetOldest b1 = Ok None ∧ GetRecent b1 = Ok None ∧
  ¬ (∀ b key, cleared b → Test b key = Ok false).
Proof.
  split_and!; try reflexivity.
  intros H. specialize (H b1 rempty).
  assert (cleared b1) as Hc
    by (apply (cleared_Init 1 Recent); [by vm_compute|by vm_compute|done]).
  by specialize (H Hc).
Qed.

(** ** Wrap-around overwrite *)

(** C2: on a buffer of size N, after inserting [r0] and then N records
    whose bytes differ from those of [r0], [Test r0] is false and [Test r]
    is true for each later record [r], in both scan orders; the last
    insertion writes the slot at the pointer, which held [r0], the oldest
    record left. (That the later records differ from one another is not
    needed.) *)
Theorem Test_after_wrap (b : Buff) (r0 : slice) (rs : list slice) :
  wf b →
  Z.of_nat (length rs) = size b →
  (∀ r, r ∈ rs → contents r ≠ contents r0) →
  ∃ b', adds b (r0 :: rs) = Ok b' ∧
    Test b' r0 = Ok false ∧ testRecent b' r0 = Ok false ∧
    testOldest b' r0 = Ok false ∧
    (∀ r, r ∈ rs →
       Test b' r = Ok true ∧ testRecent b' r = Ok true ∧
       testOldest b' r = Ok true) ∧
    (∀ rs' rN, rs = rs' ++ [rN] →
       ∃ bN, adds b (r0 :: rs') = Ok bN ∧
         index (data bN) (ptr bN) = Ok r0 ∧
         Add bN rN = Ok b' ∧
         data b' = <[Z.to_nat (ptr bN) := rN]> (data bN)).
Proof.
  intros Hwf Hlen Hne.
  destruct (adds_full b r0 rs Hwf Hlen) as (b' & HA & Hwf' & Hv).
  exists b'. split; [done|].
  rewrite Test_view, testRecent_view, testOldest_view, existsb_reverse, Hv by done.
  rewrite existsb_bytes_Equal_none by done. split_and!; try done.
  - intros r Hr.
    rewrite Test_view, testRecent_view, testOldest_view, existsb_reverse, Hv by done.
    by rewrite existsb_bytes_Equal_elem.
  - intros rs' rN ->.
    change (r0 :: rs' ++ [rN]) with ((r0 :: rs') ++ [rN]) in HA.
    rewrite adds_app in HA.
    destruct (adds_view (r0 :: rs') b Hwf) as (bN & HN & HwfN & HsN & _ & HvN).
    rewrite HN in HA. simpl in HA. exists bN. split; [done|].
    destruct (Add_view bN rN HwfN) as (b'' & HA' & _ & _ & _ & _ & Hd & _).
    rewrite HA' in HA. injection HA as ->. split_and!; try done.
    destruct (view_head bN HwfN) as (d & Hi & Hh). rewrite Hi. f_equal.
    rewrite HvN, (cons_middle r0), app_assoc in Hh.
    rewrite length_app in Hlen. simpl in Hlen.
    rewrite drop_app_le in Hh.
    2:{ rewrite length_app, length_view by done. simpl.
        destruct Hwf as (_ & _ & ?). lia. }
    rewrite drop_app_length' in Hh.
    2:{ rewrite length_view by done. destruct Hwf as (_ & _ & ?). simpl. lia. }
    simpl in Hh. congruence.
Qed.

Lemma Test_after_wrap_witness :
  ∃ b', adds b2 [ra; rb; rc] = Ok b' ∧ Test b' ra = Ok false ∧
    Test b' rb = Ok true ∧ Test b' rc = Ok true.
Proof.
  assert (wf b2) as Hwf by (split_and!; by vm_compute).
  assert (∀ r, r ∈ [rb; rc] → contents r ≠ contents ra) as Hne.
  { intros r Hr. apply list_elem_of_In in Hr.
    destruct Hr as [<- | [<- | []]]; discriminate. }
  destruct (Test_after_wrap b2 ra [rb; rc] Hwf eq_refl Hne)
    as (b' & HA & H0 & _ & _ & Hrs & _).
  exists b'. split; [exact HA|]. split; [exact H0|]. split.
  - apply Hrs. apply list_elem_of_In. simpl. tauto.
  - apply Hrs. apply list_elem_of_In. simpl. tauto.
Defined.

(** ** Most recent record *)

(** C3: after one or more insertions, the last of them of [r],
    [GetRecent] returns the bytes of [r] ([bytes.Equal] holds, and the
    result is [r] itself when [r] is not nil). [GetRecent] reads the slot
    at [ptr - 1], or at [size - 1] when [ptr] is 0. *)
Theorem GetRecent_last_added (b : Buff) (rs : list slice) (r : slice) :
  wf b →
  ∃ b' s, adds b (rs ++ [r]) = Ok b' ∧ GetRecent b' = Ok s ∧
    contents s = contents r ∧ bytes_Equal s r = true ∧
    (r ≠ None → s = r) ∧
    index (data b') (recent_index b') = Ok r.
Proof.
  intros Hwf. rewrite adds_app.
  destruct (adds_view rs b Hwf) as (b1 & -> & Hwf1 & _). simpl.
  destruct (Add_view b1 r Hwf1) as (b' & -> & Hwf' & _ & _ & _ & _ & Hv).
  destruct (GetRecent_view b' Hwf') as (d & Hl & HG).
  destruct (recent_index_view b' Hwf') as (d' & Hi & Hl').
  rewrite Hv, last_snoc in Hl, Hl'. injection Hl as <-. injection Hl' as <-.
  eexists b', _. split; [done|]. split; [exact HG|].
  assert (contents (if ptr b' =? 0
                    then match r with Some l => Some l | None => None end
                    else Some (contents r)) = contents r) as Hc
    by (by destruct (ptr b' =? 0), r).
  split_and!; try done.
  - by apply bytes_Equal_true.
  - by destruct (ptr b' =? 0), r.
Qed.

Lemma GetRecent_last_added_witness :
  ∃ b' s, adds b2 ([ra; rb] ++ [rc]) = Ok b' ∧ GetRecent b' = Ok s ∧ s = rc.
Proof.
  assert (wf b2) as Hwf by (split_and!; by vm_compute).
  destruct (GetRecent_last_added b2 [ra; rb] rc Hwf)
    as (b' & s & HA & HG & _ & _ & Hs & _).
  exists b', s. split; [exact HA|]. split; [exact HG|]. by apply Hs.
Defined.

(** ** Oldest record *)

(** C4: on a cleared buffer of size N, after between 1 and N insertions
    [GetOldest] returns the first record inserted, and right after
    insertion N+1 it returns the second. A record is a non-nil slice, of any
    length. *)
Theorem GetOldest_first_then_second (b : Buff) :
  cleared b →
  (∀ (l1 : list byte) (rest : list slice),
     Z.of_nat (length (bytes_of l1 :: rest)) <= size b →
     ∃ b', adds b (bytes_of l1 :: rest) = Ok b' ∧
       GetOldest b' = Ok (bytes_of l1)) ∧
  (∀ (r1 : slice) (l2 : list byte) (rest : list slice),
     Z.of_nat (length (r1 :: bytes_of l2 :: rest)) = size b + 1 →
     ∃ b', adds b (r1 :: bytes_of l2 :: rest) = Ok b' ∧
       GetOldest b' = Ok (bytes_of l2)).
Proof.
  intros Hf%cleared_fresh. pose proof Hf as (Hwf & _ & _).
  pose proof (fresh_view b Hf) as Hv0. split.
  - intros l1 rest Hlen.
    destruct (adds_view (bytes_of l1 :: rest) b Hwf) as (b' & -> & Hwf' & _ & _ & Hv).
    exists b'. split; [done|]. rewrite GetOldest_view, Hv, Hv0 by done.
    rewrite drop_app_le by (rewrite length_replicate; lia).
    by rewrite drop_replicate, first_non_nil_replicate.
  - intros r1 l2 rest Hlen.
    destruct (adds_view (r1 :: bytes_of l2 :: rest) b Hwf)
      as (b' & -> & Hwf' & _ & _ & Hv).
    exists b'. split; [done|]. rewrite GetOldest_view, Hv, Hv0 by done.
    rewrite (cons_middle r1), app_assoc, drop_app_length'; [done|].
    rewrite length_app, length_replicate. simpl. simpl in Hlen. lia.
Qed.

Lemma GetOldest_first_then_second_witness :
  cleared b2 ∧
  (∃ b', adds b2 [ra; rb] = Ok b' ∧ GetOldest b' = Ok ra) ∧
  (∃ b', adds b2 [ra; rb; rc] = Ok b' ∧ GetOldest b' = Ok rb).
Proof.
  assert (cleared b2) as Hc.
  { apply (cleared_Init 2 Recent); [by vm_compute|by vm_compute|reflexivity]. }
  split; [exact Hc|].
  destruct (GetOldest_first_then_second b2 Hc) as [H1 H2]. split.
  - apply (H1 [x61] [rb]). by vm_compute.
  - apply (H2 ra [x62] [rc]). reflexivity.
Defined.

(** ** Search mode *)

(** C5: two buffers created with the same size, one in mode [Recent] and
    one in mode [Oldest], and taken through the same method calls, give
    the same answer to every [Test]; on one buffer, [testRecent] and
    [testOldest] agree. The sizes are those for which [Init] returns a
    buffer, from 1 to [max_slots]. *)
Theorem Test_mode_invariant (sz : Z) (os : list op) (key : slice) :
  1 <= sz <= max_slots →
  ∃ bR bO bR' bO' x,
    Init sz Recent = Ok (inr bR) ∧ Init sz Oldest = Ok (inr bO) ∧
    run bR os = Ok bR' ∧ run bO os = Ok bO' ∧
    mode bR' = Recent ∧ mode bO' = Oldest ∧
    Test bR' key = Ok x ∧ Test bO' key = Ok x ∧
    testRecent bR' key = Ok x ∧ testOldest bR' key = Ok x.
Proof.
  intros Hsz. pose proof max_slots_int as Hmax.
  assert (1 <= sz <= int_max) as Hsz' by lia.
  pose proof (fresh_intro sz Recent Hsz') as (HwfR & _ & _).
  pose proof (fresh_intro sz Oldest Hsz') as (HwfO & _ & _).
  destruct (run_same_store os _ _ HwfR HwfO)
    as (bR' & bO' & HR & HO & HwfR' & HwfO' & Hsame & HmR & HmO);
    [by destruct Hsz|done|].
  eexists _, _, bR', bO', _. rewrite !Init_Ok by auto.
  split_and!; try done.
  - apply Test_view; done.
  - rewrite Test_view by done. by rewrite (same_store_view _ _ Hsame).
  - rewrite testRecent_view by done. by rewrite existsb_reverse.
  - by apply testOldest_view.
Qed.

Lemma Test_mode_invariant_witness :
  ∃ bR' bO' x,
    run b2 [OpAdd ra; OpAdd rb; OpAdd rc] = Ok bR' ∧
    run {| size := 2; mode := Oldest; ptr := 0; data := [None; None] |}
      [OpAdd ra; OpAdd rb; OpAdd rc] = Ok bO' ∧
    Test bR' rb = Ok x ∧ Test bO' rb = Ok x.
Proof.
  assert (1 <= 2 <= max_slots) as Hsz by (by vm_compute).
  destruct (Test_mode_invariant 2 [OpAdd ra; OpAdd rb; OpAdd rc] rb Hsz)
    as (bR & bO & bR' & bO' & x & HIR & HIO & HR & HO & _ & _ & HTR & HTO & _).
  injection HIR as <-. injection HIO as <-.
  exists bR', bO', x. split; [exact HR|]. split; [exact HO|].
  split; [exact HTR|exact HTO].
Defined.

(** ** Reset *)

(** What [Reset] leaves: every slot nil and the pointer at 0; [Test x] is
    false for every [x] of non-zero length, inserted before or not, and
    true for [x] of length zero; [GetRecent] and [GetOldest] return nil. *)
Lemma Reset_clears (b : Buff) :
  wf b → fits b →
  ∃ b', Reset b = Ok b' ∧
    size b' = size b ∧ mode b' = mode b ∧ ptr b' = 0 ∧
    data b' = replicate (Z.to_nat (size b)) None ∧
    (∀ x, len x ≠ 0%nat → Test b' x = Ok false) ∧
    (∀ x, Test b' x = Ok (len x =? 0)%nat) ∧
    GetRecent b' = Ok None ∧ GetOldest b' = Ok None.
Proof.
  intros Hwf Hfit. destruct (Reset_fresh b Hwf Hfit) as (b' & HR & Hf & Hs & Hm).
  exists b'. pose proof Hf as (_ & Hp & Hd). split_and!; try done.
  - by rewrite Hd, Hs.
  - intros x Hx. rewrite fresh_Test by done.
    by destruct (Nat.eqb_spec (len x) 0).
  - intros x. by apply fresh_Test.
  - by apply fresh_GetRecent.
  - by apply fresh_GetOldest.
Qed.

(** C6 (defect in [Test]): right after [Reset] the buffer is to be empty,
    with [Test x] false for every record [x] inserted before and
    [GetRecent], [GetOldest] returning nil. After [Add] of the zero-length
    record and [Reset], every slot is nil, the pointer is 0 and both
    accessors return nil, yet [Test] of that record is true. *)
Lemma Test_after_Reset_zero_length :
  (b ← Add b1 rempty; Reset b) = Ok b1 ∧
  (b ← Add b1 rempty; b' ← Reset b; Test b' rempty) = Ok true ∧
  (b ← Add b1 rempty; b' ← Reset b; GetRecent b') = Ok None ∧
  (b ← Add b1 rempty; b' ← Reset b; GetOldest b') = Ok None ∧
  ¬ (∀ b x bA bR, wf b → Add b x = Ok bA → Reset bA = Ok bR →
       Test bR x = Ok false).
Proof.
  split_and!; try reflexivity. intros H.
  assert (wf b1) as Hwf by (split_and!; by vm_compute).
  by specialize (H b1 rempty _ _ Hwf eq_refl eq_refl).
Qed.

(** ** Construction *)

(** C7, as stated, fails: not every size of at least 1 with a valid mode
    gives a buffer. For the size 2^44, [make([][]byte, size)] panics
    (makeslice: len out of range), so [Init] returns neither a buffer nor
    one of its two errors. *)
Lemma Init_huge_size_panics :
  Init (2 ^ 44) Recent = Panic ∧
  ¬ (∀ sz m, 1 <= sz → m = Recent ∨ m = Oldest → ∃ b, Init sz m = Ok (inr b)).
Proof.
  split; [reflexivity|]. intros H.
  by destruct (H (2 ^ 44) Recent ltac:(done) ltac:(by left)) as [b Hb].
Qed.

(** C7, amended: [Init] returns [errSize] exactly when the size is below
    1 (0 and -1 included); it returns [errMode] exactly when the size is
    at least 1 and the mode is neither [Recent] = 0 nor [Oldest] = 1; it
    returns a buffer, with every slot nil and the pointer at 0, exactly
    when the mode is valid and the size is between 1 and [max_slots], the
    most slots [make] accepts; for a valid mode and a larger size it
    panics. The two errors are distinct values and neither argument is
    replaced by a default. *)
Theorem Init_spec (sz : Z) (m : Mode) :
  (Init sz m = Ok (inl errSize) ↔ sz < 1) ∧
  (Init sz m = Ok (inl errMode) ↔ 1 <= sz ∧ m ≠ Recent ∧ m ≠ Oldest) ∧
  (∀ b, Init sz m = Ok (inr b) ↔
     1 <= sz <= max_slots ∧ (m = Recent ∨ m = Oldest) ∧
     b = {| size := sz; mode := m; ptr := 0;
            data := replicate (Z.to_nat sz) None |}) ∧
  (Init sz m = Panic ↔ max_slots < sz ∧ (m = Recent ∨ m = Oldest)) ∧
  Init 0 m = Ok (inl errSize) ∧ Init (-1) m = Ok (inl errSize) ∧
  errSize ≠ errMode ∧ Recent = 0 ∧ Oldest = 1 ∧
  max_slots = 11728124029610.
Proof.
  assert (1 <= max_slots) as Hmax by (by vm_compute).
  split_and!; try done.
  - unfold Init. destruct (Z.ltb_spec sz 1); [done|]. split; [|lia].
    destruct (negb (m =? 0) && negb (m =? 1)); [done|].
    by destruct (make_data sz).
  - unfold Init, Recent, Oldest. destruct (Z.ltb_spec sz 1).
    + split; [done|lia].
    + destruct (Z.eqb_spec m 0), (Z.eqb_spec m 1); cbn [negb andb];
        try (split; [done|tauto]);
        (split; [by destruct (make_data sz)|by intros (_ & ? & ?)]).
  - intros b. split; [apply Init_inr|].
    intros (Hsz & Hm & ->). by apply Init_Ok.
  - split.
    + intros H. destruct (Z.le_gt_cases sz max_slots) as [Hle|Hgt].
      * unfold Init in H. destruct (Z.ltb_spec sz 1); [done|].
        destruct (negb (m =? 0) && negb (m =? 1)); [done|].
        by rewrite make_data_Ok in H by lia.
      * split; [lia|]. unfold Init, Recent, Oldest in *.
        destruct (Z.ltb_spec sz 1); [lia|].
        destruct (Z.eqb_spec m 0), (Z.eqb_spec m 1); cbn [negb andb] in H;
          auto; done.
    + intros [Hgt Hm]. unfold Init. destruct (Z.ltb_spec sz 1); [lia|].
      rewrite make_data_Panic by done. by destruct Hm as [-> | ->].
Qed.

(** ** The pointer stays in range *)

(** C8: in every state reachable from [Init] by calls of [Add], [Reset],
    [Test], [GetRecent] and [GetOldest], 0 <= ptr < size. [Init] sets the
    pointer to 0; in a reachable state every call succeeds, [Add] moves the
    pointer forward by one and back to 0 when it reaches the size, [Reset]
    sets it to 0 and the three readers leave it as it is. *)
Theorem ptr_in_range (b : Buff) :
  reachable b →
  0 <= ptr b < size b ∧
  (∀ o, ∃ b' v, exec b o = Ok (b', v) ∧
     0 <= ptr b' < size b' ∧
     ptr b' = match o with
              | OpAdd _ => if ptr b + 1 =? size b then 0 else ptr b + 1
              | OpReset => 0
              | OpTest _ | OpGetRecent | OpGetOldest => ptr b
              end) ∧
  (∀ sz m b0, Init sz m = Ok (inr b0) → ptr b0 = 0).
Proof.
  intros [Hwf Hfit]%reachable_inv. split; [by destruct Hwf as (_ & ? & _)|]. split.
  - intros o. destruct (exec_wf b o Hwf Hfit) as (b' & v & Hex & Hwf' & _ & _ & Hp).
    exists b', v. split; [done|]. split; [by destruct Hwf' as (_ & ? & _)|done].
  - by intros sz m b0 (_ & _ & ->)%Init_inr.
Qed.

Lemma ptr_in_range_witness :
  reachable b2full ∧ 0 <= ptr b2full < size b2full.
Proof.
  assert (reachable b2full) as Hr.
  { apply (reach_exec {| size := 2; mode := Recent; ptr := 1; data := [ra; None] |}
             (OpAdd rb) _ VUnit); [|reflexivity].
    apply (reach_exec b2 (OpAdd ra) _ VUnit); [|reflexivity].
    apply (reach_Init 2 Recent); [by vm_compute|by vm_compute|reflexivity]. }
  split; [exact Hr|]. exact (proj1 (ptr_in_range b2full Hr)).
Defined.

(** ** Membership, in terms of the slots *)

Lemma elem_of_view (b : Buff) (s : slice) : s ∈ view b ↔ s ∈ data b.
Proof.
  unfold view. rewrite elem_of_app.
  rewrite <- (take_drop (Z.to_nat (ptr b)) (data b)) at 3.
  rewrite elem_of_app. tauto.
Qed.

Lemma existsb_bytes_Equal_true (key : slice) (v : list slice) :
  existsb (bytes_Equal key) v = true ↔ ∃ s, s ∈ v ∧ contents s = contents key.
Proof.
  rewrite existsb_exists. split.
  - intros (s & Hin & Heq). exists s. split; [by apply list_elem_of_In|].
    symmetry. by apply bytes_Equal_true.
  - intros (s & Hin & Heq). exists s. split; [by apply list_elem_of_In|].
    by apply bytes_Equal_true.
Qed.

Lemma existsb_bytes_Equal_false (key : slice) (v : list slice) :
  existsb (bytes_Equal key) v = false ↔ ∀ s, s ∈ v → contents s ≠ contents key.
Proof.
  rewrite <- not_true_iff_false, existsb_bytes_Equal_true. split.
  - intros Hn s Hin Heq. apply Hn. by exists s.
  - intros Hall (s & Hin & Heq). by apply (Hall s).
Qed.

(** X1: on a well-formed buffer, [Test key] succeeds, and it is true
    exactly when some slot holds the bytes of [key] (a nil slot holding no
    bytes), false exactly when no slot does; where the pointer stands and
    which search mode is set make no difference. *)
Theorem Test_true_iff (b : Buff) (key : slice) :
  wf b →
  (Test b key = Ok true ↔ ∃ s, s ∈ data b ∧ contents s = contents key) ∧
  (Test b key = Ok false ↔ ∀ s, s ∈ data b → contents s ≠ contents key).
Proof.
  intros Hwf. rewrite Test_view by done. split.
  - setoid_rewrite <- elem_of_view. rewrite <- existsb_bytes_Equal_true.
    split; [by intros [= ->]|by intros ->].
  - setoid_rewrite <- elem_of_view. rewrite <- existsb_bytes_Equal_false.
    split; [by intros [= ->]|by intros ->].
Qed.

Lemma Test_true_iff_witness :
  Test b2full rb = Ok true ∧ Test b2full rc = Ok false.
Proof.
  assert (wf b2full) as Hwf by (split_and!; by vm_compute).
  destruct (Test_true_iff b2full rb Hwf) as [Ht _].
  destruct (Test_true_iff b2full rc Hwf) as [_ Hf].
  split.
  - apply Ht. exists rb. split; [|reflexivity].
    apply list_elem_of_In. simpl. tauto.
  - apply Hf. intros s Hs. apply list_elem_of_In in Hs.
    destruct Hs as [<- | [<- | []]]; discriminate.
Defined.

(** X2: a record is found right after it was added: on a well-formed
    buffer [Add r] succeeds and [Test r] is true afterwards, in both scan
    orders, whatever the buffer held. *)
Theorem Test_after_Add (b : Buff) (r : slice) :
  wf b →
  ∃ b', Add b r = Ok b' ∧ Test b' r = Ok true ∧
    testRecent b' r = Ok true ∧ testOldest b' r = Ok true.
Proof.
  intros Hwf.
  destruct (Add_view b r Hwf) as (b' & HA & Hwf' & _ & _ & _ & _ & Hv).
  exists b'. split; [done|].
  rewrite Test_view, testRecent_view, testOldest_view, existsb_reverse, Hv by done.
  rewrite existsb_bytes_Equal_elem; [done|]. apply elem_of_app. right.
  by apply list_elem_of_singleton.
Qed.

Lemma Test_after_Add_witness :
  ∃ b', Add b2full rc = Ok b' ∧ Test b' rc = Ok true.
Proof.
  assert (wf b2full) as Hwf by (split_and!; by vm_compute).
  destruct (Test_after_Add b2full rc Hwf) as (b' & HA & HT & _).
  exists b'. split; [exact HA|exact HT].
Defined.

(** X3: a record survives the next [size - 1] insertions: after [Add r]
    and then fewer than [size] further insertions of any records, [Test r]
    is still true. *)
Theorem Test_retained (b : Buff) (r : slice) (rs : list slice) :
  wf b →
  Z.of_nat (length rs) < size b →
  ∃ b', adds b (r :: rs) = Ok b' ∧ Test b' r = Ok true.
Proof.
  intros Hwf Hlen.
  destruct (adds_view (r :: rs) b Hwf) as (b' & HA & Hwf' & _ & _ & Hv).
  exists b'. split; [done|]. rewrite Test_view, Hv by done.
  rewrite drop_app_le.
  2:{ rewrite length_view by done. destruct Hwf as (_ & _ & ?). simpl. lia. }
  rewrite existsb_bytes_Equal_elem; [done|].
  apply elem_of_app. right. apply list_elem_of_here.
Qed.

Lemma Test_retained_witness :
  ∃ b', adds b2full [rc; rd] = Ok b' ∧ Test b' rc = Ok true.
Proof.
  assert (wf b2full) as Hwf by (split_and!; by vm_compute).
  assert (Z.of_nat (length [rd]) < size b2full) as Hlen by (by vm_compute).
  exact (Test_retained b2full rc [rd] Hwf Hlen).
Defined.

(** X4: once at least [size] records were inserted, the buffer answers
    for exactly the last [size] of them: [Test key] is true if and only if
    one of the last [size] inserted records has the bytes of [key],
    whatever the buffer held before. *)
Theorem Test_last_inserted (b : Buff) (rs : list slice) (key : slice) :
  wf b →
  size b <= Z.of_nat (length rs) →
  ∃ b', adds b rs = Ok b' ∧
    Test b' key =
      Ok (existsb (bytes_Equal key)
            (drop (length rs - Z.to_nat (size b)) rs)).
Proof.
  intros Hwf Hlen.
  destruct (adds_view rs b Hwf) as (b' & HA & Hwf' & _ & _ & Hv).
  exists b'. split; [done|]. rewrite Test_view, Hv by done.
  assert (length (view b) = Z.to_nat (size b)) as Hvl.
  { rewrite length_view by done. destruct Hwf as (_ & _ & ?). lia. }
  rewrite drop_app_ge by lia. by rewrite Hvl.
Qed.

Lemma Test_last_inserted_witness :
  ∃ b', adds b2full [rc; rd; re] = Ok b' ∧
    Test b' rc = Ok false ∧ Test b' rd = Ok true.
Proof.
  assert (wf b2full) as Hwf by (split_and!; by vm_compute).
  assert (size b2full <= Z.of_nat (length [rc; rd; re])) as Hlen
    by (by vm_compute).
  destruct (Test_last_inserted b2full [rc; rd; re] rc Hwf Hlen) as (b' & HA & Hc).
  destruct (Test_last_inserted b2full [rc; rd; re] rd Hwf Hlen) as (b'' & HA' & Hd).
  exists b'. split; [exact HA|]. split; [exact Hc|].
  rewrite HA in HA'. injection HA' as <-. exact Hd.
Defined.

(** ** The pointer over several insertions *)

Lemma ptr_step_mod (p n : Z) :
  0 <= p < n → (if p + 1 =? n then 0 else p + 1) = (p + 1) mod n.
Proof.
  intros Hp. destruct (Z.eqb_spec (p + 1) n) as [->|Hne].
  - by rewrite Z.mod_same by lia.
  - by rewrite Z.mod_small by lia.
Qed.

(** X5: [k] insertions move the pointer [k] slots forward around the
    ring: from pointer [p] it ends at [(p + k) mod size]; they change
    neither the size, nor the mode, nor the number of slots. In particular
    [size] insertions bring the pointer back to where it was. *)
Theorem adds_ptr (rs : list slice) (b : Buff) :
  wf b →
  ∃ b', adds b rs = Ok b' ∧
    ptr b' = (ptr b + Z.of_nat (length rs)) mod size b ∧
    size b' = size b ∧ mode b' = mode b ∧
    length (data b') = length (data b) ∧
    (Z.of_nat (length rs) = size b → ptr b' = ptr b).
Proof.
  intros Hwf.
  assert (∃ b', adds b rs = Ok b' ∧ wf b' ∧
            ptr b' = (ptr b + Z.of_nat (length rs)) mod size b ∧
            size b' = size b ∧ mode b' = mode b) as (b' & HA & Hwf' & Hp & Hs & Hm).
  { clear -Hwf. revert b Hwf. induction rs as [|r rs IH]; intros b Hwf.
    - exists b. simpl. split_and!; try done.
      destruct Hwf as (_ & ? & _). rewrite Z.add_0_r, Z.mod_small; lia.
    - destruct (Add_view b r Hwf) as (b1 & HA & Hwf1 & Hs1 & Hm1 & Hp1 & _).
      destruct (IH b1 Hwf1) as (b' & HR & Hwf' & Hp' & Hs' & Hm').
      exists b'. simpl adds. rewrite HA. simpl.
      split_and!; try done; try congruence.
      rewrite Hp', Hp1, Hs1.
      rewrite ptr_step_mod by (by destruct Hwf as (_ & ? & _)).
      rewrite Zplus_mod_idemp_l. f_equal. simpl length. lia. }
  exists b'. split_and!; try done.
  - destruct Hwf as (_ & _ & Hl), Hwf' as (_ & _ & Hl'). lia.
  - intros Hk. rewrite Hp, Hk.
    destruct Hwf as (? & ? & _).
    rewrite <- Zplus_mod_idemp_r, Z.mod_same, Z.add_0_r, Z.mod_small; lia.
Qed.

Lemma adds_ptr_witness :
  ∃ b', adds b2full [rc; rd; re] = Ok b' ∧ ptr b' = 1 ∧ size b' = 2.
Proof.
  assert (wf b2full) as Hwf by (split_and!; by vm_compute).
  destruct (adds_ptr [rc; rd; re] b2full Hwf) as (b' & HA & Hp & Hs & _).
  exists b'. split; [exact HA|]. split; [exact Hp|exact Hs].
Defined.

(** ** GetOldest and nil slots *)

Lemma first_non_nil_None (v : list slice) :
  first_non_nil v = None ↔ ∀ s, s ∈ v → s = None.
Proof.
  induction v as [|[l|] v IH]; simpl.
  - split; [|done]. intros _ s Hs. by apply elem_of_nil in Hs.
  - split; [done|]. intros H. by specialize (H (Some l) (list_elem_of_here _ _)).
  - rewrite IH. split.
    + intros H s [->|Hs]%elem_of_cons; auto.
    + intros H s Hs. apply H. by apply list_elem_of_further.
Qed.

Lemma first_non_nil_elem (v : list slice) (l : list byte) :
  first_non_nil v = Some l → Some l ∈ v.
Proof.
  induction v as [|[l'|] v IH]; simpl; [done| |].
  - intros [= ->]. apply list_elem_of_here.
  - intros H. by apply list_elem_of_further, IH.
Qed.

(** X6: on a well-formed buffer [GetOldest] succeeds; it returns nil
    exactly when every slot is nil, and otherwise a non-nil slice whose
    bytes are those of a non-nil slot. A zero-length record that was
    inserted counts as present: it is returned as a non-nil empty slice. *)
Theorem GetOldest_nil_iff (b : Buff) :
  wf b →
  (GetOldest b = Ok None ↔ ∀ s, s ∈ data b → s = None) ∧
  (∀ l, GetOldest b = Ok (Some l) → Some l ∈ data b) ∧
  (∃ s, GetOldest b = Ok s).
Proof.
  intros Hwf. rewrite GetOldest_view by done. split_and!.
  - setoid_rewrite <- elem_of_view. rewrite <- first_non_nil_None.
    split; [by intros [= ->]|by intros ->].
  - intros l [= Hl]. by apply elem_of_view, first_non_nil_elem.
  - eauto.
Qed.

Lemma GetOldest_nil_iff_witness :
  GetOldest b2 = Ok None ∧ ∃ s, GetOldest b2full = Ok s.
Proof.
  assert (wf b2) as Hwf by (split_and!; by vm_compute).
  assert (wf b2full) as Hwf' by (split_and!; by vm_compute).
  split.
  - apply (proj1 (GetOldest_nil_iff b2 Hwf)).
    intros s Hs. apply list_elem_of_In in Hs.
    destruct Hs as [<- | [<- | []]]; reflexivity.
  - apply (proj2 (proj2 (GetOldest_nil_iff b2full Hwf'))).
Defined.

(** X7: on a buffer left by [Init] or [Reset], after at most [size]
    insertions [GetOldest] returns the first non-nil slice inserted,
    skipping any nil that was passed to [Add] before it, and nil when only
    nils were inserted. *)
Theorem GetOldest_before_wrap (b : Buff) (rs : list slice) :
  cleared b →
  Z.of_nat (length rs) <= size b →
  ∃ b', adds b rs = Ok b' ∧ GetOldest b' = Ok (first_non_nil rs).
Proof.
  intros Hf%cleared_fresh Hlen. pose proof Hf as (Hwf & _ & _).
  destruct (adds_view rs b Hwf) as (b' & HA & Hwf' & _ & _ & Hv).
  exists b'. split; [done|].
  rewrite GetOldest_view, Hv, (fresh_view b) by done.
  rewrite drop_app_le by (rewrite length_replicate; lia).
  by rewrite drop_replicate, first_non_nil_replicate.
Qed.

Lemma GetOldest_before_wrap_witness :
  cleared b2 ∧ ∃ b', adds b2 [None; rb] = Ok b' ∧ GetOldest b' = Ok rb.
Proof.
  assert (cleared b2) as Hc.
  { apply (cleared_Init 2 Recent); [by vm_compute|by vm_compute|reflexivity]. }
  split; [exact Hc|].
  assert (Z.of_nat (length [None; rb]) <= size b2) as Hlen by (by vm_compute).
  exact (GetOldest_before_wrap b2 [None; rb] Hc Hlen).
Defined.

(** X8: once at least [size] records were inserted, [GetOldest] returns
    the oldest of the last [size] of them, the one inserted [size - 1]
    insertions before the last, provided it is not nil; this holds after
    any number of wrap-arounds and whatever the buffer held at first. *)
Theorem GetOldest_after_wrap (b : Buff) (rs : list slice) (l : list byte) :
  wf b →
  size b <= Z.of_nat (length rs) →
  rs !! (length rs - Z.to_nat (size b))%nat = Some (bytes_of l) →
  ∃ b', adds b rs = Ok b' ∧ GetOldest b' = Ok (bytes_of l).
Proof.
  intros Hwf Hlen Hl.
  destruct (adds_view rs b Hwf) as (b' & HA & Hwf' & _ & _ & Hv).
  exists b'. split; [done|]. rewrite GetOldest_view, Hv by done.
  assert (length (view b) = Z.to_nat (size b)) as Hvl.
  { rewrite length_view by done. destruct Hwf as (_ & _ & ?). lia. }
  rewrite drop_app_ge, Hvl by lia. by rewrite (drop_S _ _ _ Hl).
Qed.

Lemma GetOldest_after_wrap_witness :
  ∃ b', adds b2full [rc; rd; re] = Ok b' ∧ GetOldest b' = Ok rd.
Proof.
  assert (wf b2full) as Hwf by (split_and!; by vm_compute).
  assert (size b2full <= Z.of_nat (length [rc; rd; re])) as Hlen
    by (by vm_compute).
  exact (GetOldest_after_wrap b2full [rc; rd; re] [x64] Hwf Hlen eq_refl).
Defined.

(** ** GetRecent and nil *)

(** X9: [GetRecent] guards against a nil slot only when the pointer is
    0. After [Add(nil)] it returns nil if that insertion wrapped the
    pointer to 0, and a non-nil empty slice otherwise; whenever the pointer
    is not 0 its result is non-nil. *)
Theorem GetRecent_after_Add_nil (b : Buff) :
  wf b →
  (∃ b', Add b None = Ok b' ∧
     GetRecent b' = Ok (if ptr b + 1 =? size b then None else Some [])) ∧
  (ptr b ≠ 0 → ∃ l, GetRecent b = Ok (Some l)).
Proof.
  intros Hwf. split.
  - destruct (Add_view b None Hwf) as (b' & HA & Hwf' & _ & _ & Hp & _ & Hv).
    exists b'. split; [done|].
    destruct (GetRecent_view b' Hwf') as (d & Hl & ->).
    rewrite Hv, last_snoc in Hl. injection Hl as <-. rewrite Hp.
    destruct Hwf as (_ & ? & _).
    destruct (Z.eqb_spec (ptr b + 1) (size b)); [done|].
    by destruct (Z.eqb_spec (ptr b + 1) 0); [lia|].
  - intros Hp. destruct (GetRecent_view b Hwf) as (d & _ & ->).
    destruct (Z.eqb_spec (ptr b) 0); [done|]. eauto.
Qed.

Lemma GetRecent_after_Add_nil_witness :
  (∃ b', Add b2 None = Ok b' ∧ GetRecent b' = Ok rempty) ∧
  (∃ b', Add b1 None = Ok b' ∧ GetRecent b' = Ok None).
Proof.
  assert (wf b2) as Hwf2 by (split_and!; by vm_compute).
  assert (wf b1) as Hwf1 by (split_and!; by vm_compute).
  split.
  - exact (proj1 (GetRecent_after_Add_nil b2 Hwf2)).
  - exact (proj1 (GetRecent_after_Add_nil b1 Hwf1)).
Defined.

(** ** Reset and Init *)

Lemma exec_mode (b : Buff) (o : op) (b' : Buff) (v : value) :
  wf b → fits b → exec b o = Ok (b', v) → size b' = size b ∧ mode b' = mode b.
Proof.
  intros Hwf Hfit Hex.
  destruct (exec_wf b o Hwf Hfit) as (b1 & v1 & Hex1 & _ & Hs & Hm & _).
  rewrite Hex in Hex1. by injection Hex1 as -> ->.
Qed.

Lemma reachable_mode (b : Buff) :
  reachable b → mode b = Recent ∨ mode b = Oldest.
Proof.
  induction 1 as [sz m b _ _ HI | b o b' v Hr IH Hex].
  - by apply Init_inr in HI as (_ & ? & ->).
  - apply reachable_inv in Hr as [Hwf Hfit].
    destruct (exec_mode b o b' v Hwf Hfit Hex) as [_ ->]. done.
Qed.

(** X10: in every reachable state, [Reset] returns the buffer to exactly
    the state that [Init] gives for the same size and mode, and a second
    [Reset] changes nothing. *)
Theorem Reset_is_Init (b : Buff) :
  reachable b →
  ∃ b0, Init (size b) (mode b) = Ok (inr b0) ∧ Reset b = Ok b0 ∧ Reset b0 = Ok b0.
Proof.
  intros Hr. pose proof (reachable_inv b Hr) as [Hwf Hfit].
  pose proof (reachable_mode b Hr) as Hm.
  destruct Hwf as ((Hs1 & Hs2) & _ & _). unfold fits in Hfit.
  rewrite Init_Ok by done. eexists. split; [done|].
  unfold Reset. simpl. by rewrite make_data_Ok by lia.
Qed.

Lemma Reset_is_Init_witness :
  reachable b2full ∧ Reset b2full = Ok b2.
Proof.
  assert (reachable b2full) as Hr.
  { apply (reach_exec {| size := 2; mode := Recent; ptr := 1; data := [ra; None] |}
             (OpAdd rb) _ VUnit); [|reflexivity].
    apply (reach_exec b2 (OpAdd ra) _ VUnit); [|reflexivity].
    apply (reach_Init 2 Recent); [by vm_compute|by vm_compute|reflexivity]. }
  split; [exact Hr|].
  destruct (Reset_is_Init b2full Hr) as (b0 & HI & HR & _).
  injection HI as <-. exact HR.
Defined.

(** ** Keys are compared by their bytes *)

Lemma scan_equal_contents (k1 k2 : slice) (d : list slice) (idx : list Z) :
  contents k1 = contents k2 → scan_equal k1 d idx = scan_equal k2 d idx.
Proof.
  intros Hk. induction idx as [|i idx IH]; simpl; [done|].
  destruct (index d i) as [s|]; simpl; [|done].
  unfold bytes_Equal. by rewrite Hk, IH.
Qed.

(** X11: [Test] sees a key through its bytes only: two keys with the
    same bytes get the same answer (or the same panic) on any buffer, so a
    nil key and an empty non-nil key are not told apart. *)
Theorem Test_key_bytes (b : Buff) (k1 k2 : slice) :
  contents k1 = contents k2 → Test b k1 = Test b k2.
Proof.
  intros Hk. unfold Test, testOldest, testRecent.
  by rewrite !(scan_equal_contents k1 k2 _ _ Hk).
Qed.

Lemma Test_key_bytes_witness : Test b2full None = Test b2full rempty.
Proof. exact (Test_key_bytes b2full None rempty eq_refl). Defined.

(** ** What no method changes *)

(** X12: in every reachable state the size is at least 1, the number of
    slots equals the size and the mode is [Recent] or [Oldest]; from there
    any sequence of method calls runs without a panic and leaves size and
    mode as [Init] set them. *)
Theorem reachable_invariants (b : Buff) :
  reachable b →
  1 <= size b <= int_max ∧
  Z.of_nat (length (data b)) = size b ∧
  (mode b = Recent ∨ mode b = Oldest) ∧
  (∀ os, ∃ b', run b os = Ok b' ∧ size b' = size b ∧ mode b' = mode b ∧
     Z.of_nat (length (data b')) = size b).
Proof.
  intros Hr. pose proof (reachable_wf b Hr) as Hwf.
  pose proof Hwf as (Hs & _ & Hl).
  split; [done|]. split; [done|]. split; [by apply reachable_mode|].
  intros os. destruct (run_wf os b Hwf (reachable_fits b Hr))
    as (b' & HR & (_ & _ & Hl') & Hs' & Hm').
  exists b'. split_and!; try done. congruence.
Qed.

Lemma reachable_invariants_witness :
  reachable b2 ∧
  ∃ b', run b2 [OpAdd ra; OpTest ra; OpReset; OpGetOldest] = Ok b' ∧
    size b' = 2.
Proof.
  assert (reachable b2) as Hr.
  { apply (reach_Init 2 Recent); [by vm_compute|by vm_compute|reflexivity]. }
  split; [exact Hr|].
  destruct (reachable_invariants b2 Hr) as (_ & _ & _ & Hrun).
  destruct (Hrun [OpAdd ra; OpTest ra; OpReset; OpGetOldest])
    as (b' & HR & Hs & _).
  exists b'. split; [exact HR|exact Hs].
Defined.

(** ** intToByte *)

Lemma to_N_byte_of_int (v : Z) : Z.of_N (Byte.to_N (byte_of_int v)) = v mod 256.
Proof.
  unfold byte_of_int.
  destruct (Byte.of_N (Z.to_N (v mod 256))) as [x|] eqn:E.
  - apply Byte.to_of_N in E. rewrite E. apply Z2N.id.
    apply Z.mod_pos_bound. lia.
  - apply Byte.of_N_None_iff in E.
    pose proof (Z.mod_pos_bound v 256 ltac:(lia)). lia.
Qed.

Lemma byte_of_int_mod (v w : Z) :
  v mod 256 = w mod 256 → byte_of_int v = byte_of_int w.
Proof. unfold byte_of_int. by intros ->. Qed.

Lemma intToByte_cons4 (x0 x1 x2 x3 : byte) (rest : list byte) (v : Z) :
  intToByte (x0 :: x1 :: x2 :: x3 :: rest) v =
    Ok (byte_of_int v :: byte_of_int (Z.shiftr v 8) ::
        byte_of_int (Z.shiftr v 16) :: byte_of_int (Z.shiftr v 24) :: rest).
Proof. reflexivity. Qed.

Lemma le_decode_bytes (v : Z) :
  le_decode [byte_of_int v; byte_of_int (Z.shiftr v 8);
             byte_of_int (Z.shiftr v 16); byte_of_int (Z.shiftr v 24)]
  = v mod 2 ^ 32.
Proof.
  cbn [le_decode]. rewrite !to_N_byte_of_int, !Z.shiftr_div_pow2 by done.
  change (2 ^ 32) with (256 * (256 * (256 * 256))).
  rewrite (Z.rem_mul_r v) by done.
  rewrite (Z.rem_mul_r (v / 256)) by done.
  rewrite (Z.rem_mul_r (v / 256 / 256)) by done.
  rewrite !Z.div_div by done.
  change (2 ^ 8) with 256. change (2 ^ 16) with (256 * 256).
  change (2 ^ 24) with (256 * 256 * 256). ring.
Qed.

Lemma shifted_byte_plus (v c m : Z) :
  0 < c → byte_of_int ((v + m * 256 * c) / c) = byte_of_int (v / c).
Proof.
  intros Hc. apply byte_of_int_mod.
  rewrite Z.div_add by lia. apply Z_mod_plus_full.
Qed.

(** X13: [intToByte(b, v)] panics exactly when [b] has fewer than four
    bytes. Otherwise it overwrites the first four bytes of [b] with the low
    32 bits of [v], least significant byte first, and leaves the length of
    [b] and its bytes from the fifth on as they were. *)
Theorem intToByte_spec (b : list byte) (v : Z) :
  ((length b < 4)%nat → intToByte b v = Panic) ∧
  ((4 ≤ length b)%nat →
     ∃ b', intToByte b v = Ok b' ∧ length b' = length b ∧
       drop 4 b' = drop 4 b ∧ le_decode (take 4 b') = v mod 2 ^ 32).
Proof.
  split.
  - intros Hlen. unfold intToByte.
    by destruct (Nat.ltb_spec 3 (length b)); [lia|].
  - intros Hlen. destruct b as [|x0 [|x1 [|x2 [|x3 rest]]]]; simpl in Hlen; try lia.
    rewrite intToByte_cons4. eexists. split; [done|].
    split; [done|]. split; [done|]. apply le_decode_bytes.
Qed.

Lemma intToByte_spec_witness :
  intToByte [x00; x00; x00] 1 = Panic ∧
  ∃ b', intToByte [x00; x00; x00; x00; x61] 258 = Ok b' ∧
    drop 4 b' = [x61] ∧ le_decode (take 4 b') = 258.
Proof.
  split.
  - apply (proj1 (intToByte_spec [x00; x00; x00] 1)). simpl. lia.
  - destruct (proj2 (intToByte_spec [x00; x00; x00; x00; x61] 258))
      as (b' & Hb & _ & Hd & Hv); [simpl; lia|].
    exists b'. split; [exact Hb|]. split; [exact Hd|exact Hv].
Defined.

(** X14: on integers from 0 to 2^32 - 1 [intToByte] is injective: two
    of them that leave the same first four bytes are equal, so the keys
    the tests build from distinct loop counters are distinct. Beyond 32 bits
    it is not: [v] and [v + 2^32] give the same bytes. *)
Theorem intToByte_inj (b b' bv bw : list byte) (v w : Z) :
  0 <= v < 2 ^ 32 → 0 <= w < 2 ^ 32 →
  intToByte b v = Ok bv → intToByte b' w = Ok bw →
  take 4 bv = take 4 bw →
  v = w ∧ intToByte b (v + 2 ^ 32) = intToByte b v.
Proof.
  intros Hv Hw Hbv Hbw Heq.
  assert (4 ≤ length b)%nat as Hlen.
  { destruct (Nat.le_gt_cases 4 (length b)) as [|Hlt]; [done|].
    apply (proj1 (intToByte_spec b v)) in Hlt. congruence. }
  assert (4 ≤ length b')%nat as Hlen'.
  { destruct (Nat.le_gt_cases 4 (length b')) as [|Hlt]; [done|].
    apply (proj1 (intToByte_spec b' w)) in Hlt. congruence. }
  split.
  - destruct (proj2 (intToByte_spec b v) Hlen) as (c & Hc & _ & _ & Hdv).
    destruct (proj2 (intToByte_spec b' w) Hlen') as (c' & Hc' & _ & _ & Hdw).
    rewrite Hbv in Hc. injection Hc as <-.
    rewrite Hbw in Hc'. injection Hc' as <-.
    rewrite Heq, Hdw in Hdv. rewrite !Z.mod_small in Hdv by done. done.
  - destruct b as [|x0 [|x1 [|x2 [|x3 rest]]]]; simpl in Hlen; try lia.
    rewrite !intToByte_cons4, !Z.shiftr_div_pow2 by done.
    assert (∀ c m, 0 < c → 2 ^ 32 = m * 256 * c →
              byte_of_int ((v + 2 ^ 32) / c) = byte_of_int (v / c)) as Hsh.
    { intros c m Hc ->. by apply shifted_byte_plus. }
    rewrite (Hsh (2 ^ 8) (2 ^ 16)), (Hsh (2 ^ 16) (2 ^ 8)), (Hsh (2 ^ 24) 1) by done.
    do 2 f_equal. apply byte_of_int_mod.
    change (2 ^ 32) with (2 ^ 24 * 256). apply Z_mod_plus_full.
Qed.

Lemma intToByte_inj_witness :
  7 = 7 ∧
  intToByte [x00; x00; x00; x00] (7 + 2 ^ 32) = intToByte [x00; x00; x00; x00] 7.
Proof.
  assert (0 <= 7 < 2 ^ 32) as H7 by (by vm_compute).
  exact (intToByte_inj [x00; x00; x00; x00] [x61; x61; x61; x61] _ _ 7 7
           H7 H7 eq_refl eq_refl eq_refl).
Defined.

(** ** bodyFrom *)

Lemma append_empty (a x : String.string) :
  String.append a x = String.EmptyString → a = String.EmptyString.
Proof. by destruct a. Qed.

Lemma Join_nonempty (a : String.string) (rest : list String.string)
    (sep : String.string) :
  a ≠ String.EmptyString → Join (a :: rest) sep ≠ String.EmptyString.
Proof.
  intros Ha. destruct rest as [|r rest]; [done|].
  cbn [Join]. intros H. by apply append_empty in H.
Qed.

(** X15: called as [main] calls it, on [os.Args] itself, [bodyFrom]
    never panics and never returns the empty string: it returns "hello"
    when there are fewer than two arguments or the first one after the
    program name is empty, and otherwise the arguments after the program
    name joined by single spaces. *)
Theorem bodyFrom_os_Args (args : list String.string) :
  ∃ s, bodyFrom args args = Ok s ∧ s ≠ String.EmptyString ∧
    ((length args < 2)%nat ∨ args !! 1%nat = Some String.EmptyString →
       s = "hello"%string) ∧
    (∀ p a rest, args = p :: a :: rest → a ≠ String.EmptyString →
       s = Join (a :: rest) " "%string).
Proof.
  unfold bodyFrom. destruct args as [|p [|a rest]].
  - eexists. split; [done|]. split; [done|]. split; [done|]. by intros ? ? ? [=].
  - eexists. split; [done|]. split; [done|]. split; [done|]. by intros ? ? ? [=].
  - cbn [length Nat.ltb Nat.leb index_string lookup list_lookup mbind result_bind].
    destruct (String.eqb_spec a String.EmptyString) as [->|Ha];
      cbn [mbind result_bind slice_from_1].
    + eexists. split; [done|]. split; [done|]. split; [done|].
      by intros ? ? ? [= <- <- <-].
    + eexists. split; [done|]. split; [by apply Join_nonempty|]. split.
      * intros [Hlt|[= ->]]; [simpl in Hlt; lia|done].
      * by intros ? ? ? [= <- <- <-].
Qed.

Lemma bodyFrom_os_Args_witness :
  ∃ s, bodyFrom ["p"; "a"; "b"]%string ["p"; "a"; "b"]%string = Ok s ∧
    s = "a b"%string.
Proof.
  destruct (bodyFrom_os_Args ["p"; "a"; "b"]%string) as (s & Hs & _ & _ & HJ).
  exists s. split; [exact Hs|].
  apply (HJ "p"%string "a"%string ["b"%string] eq_refl). discriminate.
Defined.

(** X16: [bodyFrom] tests [os.Args[1]], not [args[1]]. Given at least two
    arguments, it panics with an index out of range when [os.Args] has
    fewer than two elements, returns "hello" when [os.Args[1]] is empty
    whatever the arguments are, and otherwise joins [args[1:]], which can be
    the empty string. *)
Theorem bodyFrom_reads_os_Args (osArgs args : list String.string) :
  (2 ≤ length args)%nat →
  bodyFrom osArgs args =
    match osArgs !! 1%nat with
    | None => Panic
    | Some String.EmptyString => Ok "hello"%string
    | Some _ => Ok (Join (tail args) " "%string)
    end.
Proof.
  intros Hlen. destruct args as [|p [|a rest]]; simpl in Hlen; try lia.
  unfold bodyFrom, index_string.
  cbn [length Nat.ltb Nat.leb mbind result_bind].
  destruct (osArgs !! 1%nat) as [[|c x]|]; done.
Qed.

Lemma bodyFrom_reads_os_Args_witness :
  bodyFrom ["p"%string] ["p"; "x"]%string = Panic ∧
  bodyFrom ["p"; "y"]%string ["p"%string; String.EmptyString]
    = Ok String.EmptyString.
Proof.
  split.
  - apply (bodyFrom_reads_os_Args ["p"%string] ["p"; "x"]%string). simpl. lia.
  - apply (bodyFrom_reads_os_Args ["p"; "y"]%string
             ["p"%string; String.EmptyString]). simpl. lia.
Defined.

(** ** The methods on references and on bytes *)

Lemma index_abs (h : shared.heap) (d : list shared.hslice) (i : Z) :
  index (shared.load h <$> d) i = result_map (shared.load h) (shared.index d i).
Proof.
  unfold index, shared.index. destruct (0 <=? i); [|done].
  rewrite list_lookup_fmap. by destruct (d !! Z.to_nat i).
Qed.

Lemma store_abs (h : shared.heap) (d : list shared.hslice) (i : Z)
    (v : shared.hslice) :
  store (shared.load h <$> d) i (shared.load h v) =
    result_map (fmap (shared.load h)) (shared.store d i v).
Proof.
  unfold store, shared.store. rewrite length_fmap.
  destruct ((0 <=? i) && (i <? Z.of_nat (length d))); [|done].
  simpl. by rewrite list_fmap_insert.
Qed.

Lemma Add_abs (h : shared.heap) (b : shared.Buff) (d : shared.hslice) :
  Add (abs h b) (shared.load h d) = result_map (abs h) (shared.Add b d).
Proof.
  unfold Add, shared.Add, abs. cbn [data ptr size mode].
  rewrite store_abs. by destruct (shared.store _ _ _).
Qed.

Lemma scan_equal_abs (h : shared.heap) (key : shared.hslice)
    (d : list shared.hslice) (idx : list Z) :
  scan_equal (shared.load h key) (shared.load h <$> d) idx =
    shared.scan_equal h key d idx.
Proof.
  induction idx as [|i idx IH]; [done|].
  cbn [scan_equal shared.scan_equal]. rewrite index_abs.
  destruct (shared.index d i) as [s|]; [|done].
  cbn [result_map mbind result_bind]. by rewrite IH.
Qed.

Lemma Test_abs (h : shared.heap) (b : shared.Buff) (key : shared.hslice) :
  Test (abs h b) (shared.load h key) = shared.Test h b key.
Proof.
  unfold Test, shared.Test, testOldest, shared.testOldest, testRecent,
    shared.testRecent, abs. cbn [data ptr size mode].
  by rewrite !scan_equal_abs.
Qed.

Lemma loaded_copy_out (h : shared.heap) (d : shared.hslice) :
  loaded (shared.copy_out h d) = copy_out (shared.load h d).
Proof.
  unfold loaded, shared.copy_out, copy_out. cbn [fst snd shared.load
    shared.arr shared.off shared.rlen].
  unfold shared.heap in *.
  rewrite lookup_app_r, Nat.sub_diag by done. cbn [lookup list_lookup default].
  by rewrite drop_0, take_ge.
Qed.

Lemma GetRecent_abs (h : shared.heap) (b : shared.Buff) :
  GetRecent (abs h b) = result_map loaded (shared.GetRecent h b).
Proof.
  unfold GetRecent, shared.GetRecent, abs. cbn [data ptr size mode].
  destruct (shared.ptr b =? 0); rewrite index_abs.
  - destruct (shared.index _ _) as [[r|]|]; try done.
    cbn [result_map mbind result_bind shared.load]. by rewrite loaded_copy_out.
  - destruct (shared.index _ _) as [d|]; [|done].
    cbn [result_map mbind result_bind]. by rewrite loaded_copy_out.
Qed.

Lemma scan_non_nil_abs (h : shared.heap) (d : list shared.hslice) (idx : list Z) :
  scan_non_nil (shared.load h <$> d) idx =
    result_map (fmap loaded) (shared.scan_non_nil h d idx).
Proof.
  induction idx as [|i idx IH]; [done|].
  cbn [scan_non_nil shared.scan_non_nil]. rewrite index_abs.
  destruct (shared.index d i) as [[r|]|]; try done.
  cbn [result_map mbind result_bind shared.load fmap option_fmap option_map].
  by rewrite loaded_copy_out.
Qed.

Lemma GetOldest_abs (h : shared.heap) (b : shared.Buff) :
  GetOldest (abs h b) = result_map loaded (shared.GetOldest h b).
Proof.
  unfold GetOldest, shared.GetOldest, abs. cbn [data ptr size mode].
  rewrite !scan_non_nil_abs.
  destruct (shared.scan_non_nil h _ (upto (shared.ptr b) _)) as [[res|]|]; try done.
  cbn [result_map mbind result_bind fmap option_fmap option_map].
  destruct (shared.scan_non_nil h _ (upto 0 _)) as [[res|]|]; done.
Qed.

(** X17: read in any heap, the methods on slice headers are the methods
    on bytes: [Add] of a header stores what, loaded, is [Add] of its
    bytes; [Test] gives the same answer; and the slice [GetRecent] or
    [GetOldest] returns shows, in the heap returned with it, the bytes that
    the value-level method returns. Panics correspond. *)
Theorem shared_methods_abs (h : shared.heap) (b : shared.Buff)
    (d key : shared.hslice) :
  result_map (abs h) (shared.Add b d) = Add (abs h b) (shared.load h d) ∧
  shared.Test h b key = Test (abs h b) (shared.load h key) ∧
  result_map loaded (shared.GetRecent h b) = GetRecent (abs h b) ∧
  result_map loaded (shared.GetOldest h b) = GetOldest (abs h b).
Proof.
  split_and!; symmetry.
  - apply Add_abs.
  - apply Test_abs.
  - apply GetRecent_abs.
  - apply GetOldest_abs.
Qed.

(** ** What the buffer shares with its caller *)

Lemma wf_abs_heap (h h' : shared.heap) (b : shared.Buff) :
  wf (abs h b) → wf (abs h' b).
Proof.
  unfold wf, abs. cbn [size ptr data]. by rewrite !length_fmap.
Qed.

Lemma Add_then_read (b : Buff) (r : slice) :
  wf b →
  ∃ b', Add b r = Ok b' ∧ wf b' ∧ Test b' r = Ok true ∧
    ∃ s, GetRecent b' = Ok s ∧ contents s = contents r.
Proof.
  intros Hwf.
  destruct (Add_view b r Hwf) as (b' & HA & Hwf' & _ & _ & _ & _ & Hv).
  exists b'. split; [done|]. split; [done|]. split.
  - rewrite Test_view, Hv by done. rewrite existsb_bytes_Equal_elem; [done|].
    apply elem_of_app. right. by apply list_elem_of_singleton.
  - destruct (GetRecent_view b' Hwf') as (d & Hl & ->).
    rewrite Hv, last_snoc in Hl. injection Hl as <-.
    eexists. split; [done|]. by destruct (ptr b' =? 0), r.
Qed.

Lemma shared_Add_Ok (h : shared.heap) (b : shared.Buff) (d : shared.hslice) :
  wf (abs h b) →
  ∃ b', shared.Add b d = Ok b' ∧
    ∀ h', Add (abs h' b) (shared.load h' d) = Ok (abs h' b').
Proof.
  intros Hwf.
  destruct (Add_view (abs h b) (shared.load h d) Hwf) as (b0 & HA & _).
  rewrite Add_abs in HA. destruct (shared.Add b d) as [b'|] eqn:E; [|done].
  exists b'. split; [done|]. intros h'. by rewrite Add_abs, E.
Qed.

(** X18: [Add] keeps the slice it is given, not a copy of its bytes. In
    any later heap, for instance after the caller has written new bytes
    through the slice, [Test] of that slice is true and [GetRecent]
    returns the bytes the slice shows then, not those it showed when it
    was added. *)
Theorem Add_shares (h : shared.heap) (b : shared.Buff) (d : shared.hslice) :
  wf (abs h b) →
  ∃ b', shared.Add b d = Ok b' ∧
    ∀ h', shared.Test h' b' d = Ok true ∧
      ∃ res, shared.GetRecent h' b' = Ok res ∧
        contents (loaded res) = contents (shared.load h' d).
Proof.
  intros Hwf. destruct (shared_Add_Ok h b d Hwf) as (b' & HA & Habs).
  exists b'. split; [done|]. intros h'.
  destruct (Add_then_read (abs h' b) (shared.load h' d) (wf_abs_heap h h' b Hwf))
    as (b0 & HA0 & _ & HT & s & HG & Hs).
  rewrite Habs in HA0. injection HA0 as <-. split.
  - by rewrite <- Test_abs.
  - rewrite GetRecent_abs in HG.
    destruct (shared.GetRecent h' b') as [res|]; [|done].
    exists res. split; [done|]. by injection HG as ->.
Qed.

Lemma Add_shares_witness :
  ∃ b', shared.Add sb2 (Some buf4) = Ok b' ∧
    ∀ h', shared.Test h' b' (Some buf4) = Ok true.
Proof.
  assert (wf (abs h4 sb2)) as Hwf by (split_and!; by vm_compute).
  destruct (Add_shares h4 sb2 (Some buf4) Hwf) as (b' & HA & Hall).
  exists b'. split; [exact HA|]. intros h'. exact (proj1 (Hall h')).
Defined.

(** ** The insertion loop of the tests *)

Lemma write_valid (h : shared.heap) (r : shared.ref) (i : nat) (x : byte) :
  shared.valid h r → (i < shared.rlen r)%nat →
  ∃ h', shared.write h (Some r) i x = Ok h' ∧ shared.valid h' r.
Proof.
  intros (a & Ha & Hlen) Hi. unfold shared.write.
  destruct (Nat.ltb_spec i (shared.rlen r)); [|lia]. rewrite Ha.
  eexists. split; [done|]. eexists. split.
  - apply list_lookup_insert_eq. by apply lookup_lt_Some in Ha.
  - by rewrite length_insert.
Qed.

Lemma intToByte_valid (h : shared.heap) (r : shared.ref) (v : Z) :
  shared.valid h r → (4 ≤ shared.rlen r)%nat →
  ∃ h', shared.intToByte h (Some r) v = Ok h' ∧ shared.valid h' r.
Proof.
  intros Hv Hlen. unfold shared.intToByte. cbn [shared.hlen].
  destruct (Nat.ltb_spec 3 (shared.rlen r)); [|lia].
  destruct (write_valid h r 0 (byte_of_int v) Hv) as (h0 & -> & Hv0); [lia|].
  cbn [mbind result_bind].
  destruct (write_valid h0 r 1 (byte_of_int (Z.shiftr v 8)) Hv0)
    as (h1 & -> & Hv1); [lia|].
  cbn [mbind result_bind].
  destruct (write_valid h1 r 2 (byte_of_int (Z.shiftr v 16)) Hv1)
    as (h2 & -> & Hv2); [lia|].
  cbn [mbind result_bind].
  apply write_valid; [done|lia].
Qed.

Lemma fill_adds (idx : list Z) (h : shared.heap) (b : shared.Buff)
    (r : shared.ref) :
  wf (abs h b) → shared.valid h r → (4 ≤ shared.rlen r)%nat →
  ∃ h1 b1, shared.fill h b (Some r) idx = Ok (h1, b1) ∧
    ∀ h', adds (abs h' b) (replicate (length idx) (shared.load h' (Some r)))
          = Ok (abs h' b1).
Proof.
  revert h b. induction idx as [|i idx IH]; intros h b Hwf Hv Hlen.
  - exists h, b. done.
  - destruct (intToByte_valid h r i Hv Hlen) as (h2 & Hi & Hv2).
    destruct (shared_Add_Ok h b (Some r) Hwf) as (b2 & HA & Habs).
    assert (wf (abs h2 b2)) as Hwf2.
    { destruct (Add_view (abs h2 b) (shared.load h2 (Some r))
                  (wf_abs_heap h h2 b Hwf)) as (b0 & HA0 & Hwf0 & _).
      rewrite Habs in HA0. by injection HA0 as <-. }
    destruct (IH h2 b2 Hwf2 Hv2 Hlen) as (h1 & b1 & HF & Hall).
    exists h1, b1. split.
    + cbn [shared.fill]. rewrite Hi, HA. done.
    + intros h'. cbn [length replicate adds]. rewrite Habs. apply Hall.
Qed.

(** X19: the loop of [TestOverwrite] and [TestGetRecent], which adds the
    one slice [buff] [size] times and rewrites it with [intToByte] before
    each [Add], runs without a panic and leaves a buffer in which [Test key]
    is true exactly when [key] has the bytes that [buff] shows at the time
    of the call. So [Test(buff)] is true whatever is written into [buff]
    afterwards, and no earlier value of the loop counter is found through a
    slice of its own. *)
Theorem fill_aliases (h : shared.heap) (b : shared.Buff) (r : shared.ref) :
  wf (abs h b) → shared.valid h r → (4 ≤ shared.rlen r)%nat →
  ∃ h1 b1, shared.fill h b (Some r) (upto 0 (shared.size b)) = Ok (h1, b1) ∧
    ∀ h' key,
      shared.Test h' b1 key =
        Ok (bytes_Equal (shared.load h' key) (shared.load h' (Some r))).
Proof.
  intros Hwf Hv Hlen.
  destruct (fill_adds (upto 0 (shared.size b)) h b r Hwf Hv Hlen)
    as (h1 & b1 & HF & Hall).
  exists h1, b1. split; [done|]. intros h' key.
  pose proof (wf_abs_heap h h' b Hwf) as Hwf'.
  destruct (adds_view (replicate (length (upto 0 (shared.size b)))
              (shared.load h' (Some r))) (abs h' b) Hwf')
    as (b0 & HA0 & Hwf0 & _ & _ & Hv0).
  rewrite Hall in HA0. injection HA0 as <-.
  rewrite <- Test_abs, Test_view, Hv0 by done.
  assert (length (upto 0 (shared.size b)) = length (view (abs h' b))) as Hl.
  { unfold upto. rewrite length_seqZ, length_view by done.
    destruct Hwf' as (_ & _ & Hd). cbn [size data abs] in *. lia. }
  rewrite length_replicate, Hl, drop_app_length, <- Hl.
  rewrite existsb_replicate.
  destruct Hwf' as ((Hs & _) & _ & _). cbn [size abs] in Hs.
  unfold upto. rewrite length_seqZ.
  by destruct (Nat.ltb_spec 0 (Z.to_nat (shared.size b - 0))); [|lia].
Qed.

Lemma fill_aliases_witness :
  ∃ h1 b1, shared.fill h4 sb2 (Some buf4) (upto 0 2) = Ok (h1, b1) ∧
    shared.Test h1 b1 (Some buf4) = Ok true.
Proof.
  assert (wf (abs h4 sb2)) as Hwf by (split_and!; by vm_compute).
  assert (shared.valid h4 buf4) as Hv.
  { exists [x61; x00; x00; x00]. split; [reflexivity|]. by vm_compute. }
  assert (4 ≤ shared.rlen buf4)%nat as Hlen by (by vm_compute).
  destruct (fill_aliases h4 sb2 buf4 Hwf Hv Hlen) as (h1 & b1 & HF & Hall).
  exists h1, b1. split; [exact HF|].
  rewrite (Hall h1 (Some buf4)). f_equal. by apply bytes_Equal_true.
Defined.

(** ** The readers return copies *)

Lemma load_app (h : shared.heap) (a : list byte) (r : shared.ref) :
  shared.valid h r → shared.load (h ++ [a]) (Some r) = shared.load h (Some r).
Proof.
  intros (a0 & Ha & _). cbn [shared.load]. unfold shared.heap in *.
  rewrite lookup_app_l; [done|]. by apply lookup_lt_Some in Ha.
Qed.

Lemma load_insert_fresh (h : shared.heap) (a a' : list byte) (r : shared.ref) :
  shared.valid h r →
  shared.load (<[length h := a']> (h ++ [a])) (Some r) = shared.load h (Some r).
Proof.
  intros (a0 & Ha & _). cbn [shared.load]. unfold shared.heap in *.
  apply lookup_lt_Some in Ha as Hlt.
  rewrite list_lookup_insert_ne by lia. by rewrite lookup_app_l.
Qed.

Lemma abs_ext (h h' : shared.heap) (b : shared.Buff) :
  (∀ r, Some r ∈ shared.data b → shared.load h' (Some r) = shared.load h (Some r)) →
  abs h' b = abs h b.
Proof.
  intros Hall. unfold abs. f_equal. apply Forall_fmap_ext_1, Forall_forall.
  intros [r|] Hin; [by apply Hall|done].
Qed.

Lemma copy_out_fresh (h : shared.heap) (b : shared.Buff) (d : shared.hslice) :
  (∀ r, Some r ∈ shared.data b → shared.valid h r) →
  abs (shared.copy_out h d).1 b = abs h b ∧
  ∀ i x h2,
    shared.write (shared.copy_out h d).1 (shared.copy_out h d).2 i x = Ok h2 →
    abs h2 b = abs h b.
Proof.
  intros Hval. unfold shared.copy_out. cbn [fst snd]. split.
  - apply abs_ext. intros r Hr. by apply load_app, Hval.
  - intros i x h2. unfold shared.write. cbn [shared.arr shared.off shared.rlen].
    destruct (_ <? _)%nat; [|done]. unfold shared.heap in *.
    rewrite lookup_app_r, Nat.sub_diag by done. cbn [lookup list_lookup].
    intros [= <-]. apply abs_ext. intros r Hr. by apply load_insert_fresh, Hval.
Qed.

Lemma scan_non_nil_copy (h : shared.heap) (d : list shared.hslice)
    (idx : list Z) (res : shared.heap * shared.hslice) :
  shared.scan_non_nil h d idx = Ok (Some res) →
  ∃ s, res = shared.copy_out h s.
Proof.
  induction idx as [|i idx IH]; [done|]. cbn [shared.scan_non_nil].
  destruct (shared.index d i) as [[r|]|]; cbn [mbind result_bind]; try done.
  intros [= <-]. eauto.
Qed.

Lemma reader_result (h : shared.heap) (b : shared.Buff)
    (res : shared.heap * shared.hslice) :
  shared.GetRecent h b = Ok res ∨ shared.GetOldest h b = Ok res →
  res = (h, None) ∨ ∃ s, res = shared.copy_out h s.
Proof.
  intros [H|H].
  - unfold shared.GetRecent in H. destruct (shared.ptr b =? 0).
    + destruct (shared.index _ _) as [[r|]|]; cbn [mbind result_bind] in H;
        try done; injection H as <-; eauto.
    + destruct (shared.index _ _) as [d|]; cbn [mbind result_bind] in H;
        try done; injection H as <-; eauto.
  - unfold shared.GetOldest in H.
    destruct (shared.scan_non_nil h _ (upto (shared.ptr b) _)) as [[r1|]|] eqn:E1;
      cbn [mbind result_bind] in H; try done.
    + injection H as <-. right. by eapply scan_non_nil_copy.
    + destruct (shared.scan_non_nil h _ (upto 0 _)) as [[r2|]|] eqn:E2;
        cbn [mbind result_bind] in H; try done; injection H as <-.
      * right. by eapply scan_non_nil_copy.
      * by left.
Qed.

(** X20: [GetRecent] and [GetOldest] return nil or a slice over a newly
    allocated array. When every slot of the buffer points into the heap,
    allocating the result leaves the bytes of every slot as they were, and
    so does any later write through the returned slice: the caller cannot
    change the buffer through what it got back. *)
Theorem readers_return_copies (h : shared.heap) (b : shared.Buff)
    (res : shared.heap * shared.hslice) :
  (∀ r, Some r ∈ shared.data b → shared.valid h r) →
  shared.GetRecent h b = Ok res ∨ shared.GetOldest h b = Ok res →
  abs res.1 b = abs h b ∧
  (∀ i x h2, shared.write res.1 res.2 i x = Ok h2 → abs h2 b = abs h b).
Proof.
  intros Hval Hres. destruct (reader_result h b res Hres) as [->|[s ->]].
  - split; [done|]. by intros i x h2.
  - by apply copy_out_fresh.
Qed.

Lemma readers_return_copies_witness :
  ∃ res h2, shared.GetRecent h4 sb1 = Ok res ∧
    shared.write res.1 res.2 0 x62 = Ok h2 ∧
    shared.load h2 res.2 = Some [x62; x00; x00; x00] ∧
    abs h2 sb1 = abs h4 sb1.
Proof.
  assert (∀ r, Some r ∈ shared.data sb1 → shared.valid h4 r) as Hval.
  { intros r Hr. apply list_elem_of_In in Hr. destruct Hr as [[= <-]|[]].
    exists [x61; x00; x00; x00]. split; [reflexivity|]. by vm_compute. }
  eexists _, _. split; [reflexivity|]. split; [reflexivity|].
  split; [reflexivity|].
  exact (proj2 (readers_return_copies h4 sb1 _ Hval (or_introl eq_refl))
           0%nat x62 _ eq_refl).
Defined.

End buff.
